(** * Token construction and signing (sign.go)

    A shallow embedding of [FormatWithoutSign], [ECDSASign], [EdDSASign],
    [HMACSign], [RSASign] and [newToken], together with the parts of the Go
    standard library they rely on (base64 raw URL encoding, slices, the
    limbs of [big.Int], [strconv.AppendQuote]).

    Conventions.
    - A Go [byte] is a [Z] in [0, 256); a [[]byte] is a [list Z].
    - A Go [string] is a Rocq [string] (a sequence of 8-bit characters).
    - A Go [int] used as an index is a [Z] when it can run below zero and a
      [nat] when the code only ever adds to it.
    - Writes through an index are bounds checked: out of range is a panic. *)

From Stdlib Require Import ZArith String Ascii Lia.
From stdpp Require Import base list.

Local Open Scope Z_scope.

(** ** Byte strings *)

Abbreviation bytes := (list Z).

Fixpoint bytesOf (s : string) : bytes :=
  match s with
  | EmptyString => []
  | String a rest => Z.of_N (N_of_ascii a) :: bytesOf rest
  end.

(** ** encoding/base64: [RawURLEncoding] *)

Module base64.

(** The URL-safe alphabet, [encodeURL] in the Go library. *)
Definition encodeURL : bytes :=
  bytesOf "ABCDEFGHIJKLMNOPQRSTUVWXYZabcdefghijklmnopqrstuvwxyz0123456789-_".

(** [enc.encode[v]]: the table is only ever indexed with [v & 0x3F]. *)
Definition sextet (v : Z) : Z :=
  nth (Z.to_nat (Z.land v 63)) encodeURL 0.

(** [EncodedLen] for an encoding without padding. *)
Definition EncodedLen (n : nat) : nat :=
  (n / 3 * 4 + (n mod 3 * 8 + 5) / 6)%nat.

(** [val := uint(a)<<16 | uint(b)<<8 | uint(c)] *)
Definition val3 (a b c : Z) : Z :=
  Z.lor (Z.lor (Z.shiftl a 16) (Z.shiftl b 8)) c.

Definition quad (a b c : Z) : bytes :=
  let v := val3 a b c in
  [ sextet (Z.shiftr v 18); sextet (Z.shiftr v 12);
    sextet (Z.shiftr v 6); sextet v ].

(** The remaining small block of [Encode], one or two bytes, no padding. *)
Definition tail1 (a : Z) : bytes :=
  let v := Z.shiftl a 16 in
  [ sextet (Z.shiftr v 18); sextet (Z.shiftr v 12) ].

Definition tail2 (a b : Z) : bytes :=
  let v := Z.lor (Z.shiftl a 16) (Z.shiftl b 8) in
  [ sextet (Z.shiftr v 18); sextet (Z.shiftr v 12); sextet (Z.shiftr v 6) ].

(** [Encode] as a function from the source bytes to the bytes written,
    for a destination that does not share storage with the source. *)
Fixpoint encode (src : bytes) : bytes :=
  match src with
  | a :: b :: c :: rest => quad a b c ++ encode rest
  | [a; b] => tail2 a b
  | [a] => tail1 a
  | [] => []
  end.

(** [Encode(dst, src)] where [dst] and [src] are windows into one backing
    array [mem]: [dst] starts at [d], [src] starts at [s] and holds [n]
    bytes.  Every group is read before its four characters are stored, in
    the order of the library's loop; a store out of range is a panic. *)
Definition store (mem : bytes) (i : nat) (v : Z) : option bytes :=
  if decide (i < length mem)%nat then Some (<[i:=v]> mem) else None.

Fixpoint storeAll (mem : bytes) (i : nat) (vs : bytes) : option bytes :=
  match vs with
  | [] => Some mem
  | v :: vs' => mem' ← store mem i v; storeAll mem' (S i) vs'
  end.

Definition load (mem : bytes) (i : nat) : option Z := mem !! i.

Fixpoint encodeAt (groups : nat) (rem : nat) (mem : bytes) (d s : nat)
  : option bytes :=
  match groups with
  | S g =>
      a ← load mem s; b ← load mem (s + 1)%nat; c ← load mem (s + 2)%nat;
      mem' ← storeAll mem d (quad a b c);
      encodeAt g rem mem' (d + 4)%nat (s + 3)%nat
  | O =>
      match rem with
      | 0%nat => Some mem
      | 1%nat => a ← load mem s; storeAll mem d (tail1 a)
      | _ => a ← load mem s; b ← load mem (s + 1)%nat;
             storeAll mem d (tail2 a b)
      end
  end.

Definition EncodeInPlace (mem : bytes) (d s n : nat) : option bytes :=
  encodeAt (n / 3) (n mod 3) mem d s.

(** [Encode(dst, src)] for a source held elsewhere: [dst] is the window
    [[d, e)] of [mem].  The call stores [EncodedLen(len(src))] characters
    from [d] on and panics when the window is shorter than that. *)
Definition EncodeTo (mem : bytes) (d e : nat) (src : bytes) : option bytes :=
  if decide (d + length (encode src) <= e /\ e <= length mem)%nat
  then storeAll mem d (encode src)
  else None.

(** The cursors of the library's loop at the start of group [k]. *)
Definition readCursor (s k : nat) : nat := (s + 3 * k)%nat.
Definition writeCursor (d k : nat) : nat := (d + 4 * k)%nat.

(** Membership in the URL-safe alphabet. *)
Definition isURLChar (c : Z) : bool :=
  ((65 <=? c) && (c <=? 90)) || ((97 <=? c) && (c <=? 122))
  || ((48 <=? c) && (c <=? 57)) || (c =? 45) || (c =? 95).

End base64.

(** ** Slices

    A [[]byte] whose window starts at the first element of its backing
    array: [arr] is the whole array (so [cap] is its length) and [len] the
    logical length.  [moves] counts how often [append] had to move the
    slice to a new array since [make]; it is instrumentation, not data. *)

Record slice := Slice { arr : bytes; len : nat; moves : nat }.

Definition cap (t : slice) : nat := length (arr t).

(** The bytes a caller sees: [t[0:len(t)]]. *)
Definition contents (t : slice) : bytes := take (len t) (arr t).

(** [make([]byte, l, c)]: a zeroed array of [c] bytes. *)
Definition make (l c : nat) : slice := Slice (replicate c 0) l 0.

(** [t[:cap(t)]] *)
Definition full (t : slice) : slice := Slice (arr t) (cap t) (moves t).

(** [t[i] = v], a panic when [i] is not below [len(t)]. *)
Definition setIndex (t : slice) (i : nat) (v : Z) : option slice :=
  if decide (i < len t)%nat
  then Some (Slice (<[i:=v]> (arr t)) (len t) (moves t))
  else None.

(** [copy(t, src)]: copies [min(len(t), len(src))] bytes, never panics. *)
Definition copy (t : slice) (src : bytes) : slice :=
  Slice (list_inserts 0 (take (len t) src) (arr t)) (len t) (moves t).

(** [encoding.Encode(t[from:], src)] with [src] held elsewhere. *)
Definition encodeInto (t : slice) (from : nat) (src : bytes) : option slice :=
  if decide (from <= len t)%nat then
    mem ← base64.EncodeTo (arr t) from (len t) src;
    Some (Slice mem (len t) (moves t))
  else None.

(** ** Errors and results *)

Inductive error :=
  | AlgError (alg : string)
  | errNoSecret                (* SecretRequiredError in the specification *)
  | otherError (code : nat).   (* raised by a collaborator, passed through *)

(** What a signing function hands back: the pair [(token, err)] of an
    ordinary return, [None] standing for [nil], or a run-time panic. *)
Inductive goret :=
  | Return (token : option slice) (err : option error)
  | Panic.

Inductive Hash := SHA256 | SHA384 | SHA512.

(** [crypto.Hash.Size] *)
Definition hashSize (h : Hash) : nat :=
  match h with SHA256 => 32 | SHA384 => 48 | SHA512 => 64 end%nat.

Record Claims := mkClaims { Raw : bytes; KeyID : string }.

(** The part of [ecdsa.PrivateKey] the code reads: [Curve.Params().BitSize]. *)
Record ecdsa_PrivateKey := mkEC { BitSize : nat; ecD : Z }.

(** The part of [rsa.PrivateKey] the code reads: [key.Size()]. *)
Record rsa_PrivateKey := mkRSA { rsaSize : nat; rsaD : Z }.

(** [ed25519.SignatureSize] *)
Definition ed25519_SignatureSize : nat := 64.

(** [ed25519.PrivateKeySize]: [ed25519.Sign] panics on a key of any other
    length. *)
Definition ed25519_PrivateKeySize : nat := 64.


(** ** Algorithm identifiers and family tables *)

Local Open Scope string_scope.

(** Modelled from the spec: the thirteen algorithm identifier constants,
    declared outside sign.go; each constant holds its own name. *)
Definition EdDSA := "EdDSA".
Definition ES256 := "ES256".
Definition ES384 := "ES384".
Definition ES512 := "ES512".
Definition HS256 := "HS256".
Definition HS384 := "HS384".
Definition HS512 := "HS512".
Definition PS256 := "PS256".
Definition PS384 := "PS384".
Definition PS512 := "PS512".
Definition RS256 := "RS256".
Definition RS384 := "RS384".
Definition RS512 := "RS512".

(** Modelled from the spec: the family tables [ECDSAAlgs], [HMACAlgs] and
    [RSAAlgs], declared outside sign.go, as the enumerated sets of the
    AlgorithmCatalog with the hash each identifier names. *)
Definition ECDSAAlgs : list (string * Hash) :=
  [ (ES256, SHA256); (ES384, SHA384); (ES512, SHA512) ].

Definition HMACAlgs : list (string * Hash) :=
  [ (HS256, SHA256); (HS384, SHA384); (HS512, SHA512) ].

Definition RSAAlgs : list (string * Hash) :=
  [ (RS256, SHA256); (RS384, SHA384); (RS512, SHA512);
    (PS256, SHA256); (PS384, SHA384); (PS512, SHA512) ].

(** Modelled from the spec: [hashLookup], declared outside sign.go:
    [lookup(alg, family)] returns the family's hash for [alg] and fails
    with [AlgError{alg}] when [alg] is not a member of the family. *)
Fixpoint hashLookup (alg : string) (algs : list (string * Hash))
  : Hash + error :=
  match algs with
  | [] => inr (AlgError alg)
  | (name, h) :: rest =>
      if String.eqb alg name then inl h else hashLookup alg rest
  end.

(** The identifiers with a precomputed header, in the order of the switch. *)
Definition fixedAlgs : list string :=
  [ EdDSA; ES256; ES384; ES512; HS256; HS384; HS512;
    PS256; PS384; PS512; RS256; RS384; RS512 ].

(** The [switch alg] of [newToken]; the empty string when no case matches. *)
Definition fixedHeader (alg : string) : string :=
  if String.eqb alg EdDSA then "eyJhbGciOiJFZERTQSJ9."
  else if String.eqb alg ES256 then "eyJhbGciOiJFUzI1NiJ9."
  else if String.eqb alg ES384 then "eyJhbGciOiJFUzM4NCJ9."
  else if String.eqb alg ES512 then "eyJhbGciOiJFUzUxMiJ9."
  else if String.eqb alg HS256 then "eyJhbGciOiJIUzI1NiJ9."
  else if String.eqb alg HS384 then "eyJhbGciOiJIUzM4NCJ9."
  else if String.eqb alg HS512 then "eyJhbGciOiJIUzUxMiJ9."
  else if String.eqb alg PS256 then "eyJhbGciOiJQUzI1NiJ9."
  else if String.eqb alg PS384 then "eyJhbGciOiJQUzM4NCJ9."
  else if String.eqb alg PS512 then "eyJhbGciOiJQUzUxMiJ9."
  else if String.eqb alg RS256 then "eyJhbGciOiJSUzI1NiJ9."
  else if String.eqb alg RS384 then "eyJhbGciOiJSUzM4NCJ9."
  else if String.eqb alg RS512 then "eyJhbGciOiJSUzUxMiJ9."
  else EmptyString.

Local Close Scope string_scope.

(** ** strconv.AppendQuote *)

Module strconv.

(** [lowerhex[v]] for [v] in [0, 16). *)
Definition lowerhex (v : Z) : Z :=
  nth (Z.to_nat v) (bytesOf "0123456789abcdef") 0.

(** [utf8.ValidRune] *)
Definition ValidRune (r : Z) : bool :=
  ((0 <=? r) && (r <? 55296)) || ((57343 <? r) && (r <=? 1114111)).

Definition RuneError : Z := 65533.

(** The digits of [r], [n] of them, most significant first:
    [for s := 4*(n-1); s >= 0; s -= 4 { lowerhex[r>>s & 0xF] }]. *)
Fixpoint hexDigits (n : nat) (r : Z) : bytes :=
  match n with
  | O => []
  | S k => lowerhex (Z.land (Z.shiftr r (4 * Z.of_nat k)) 15) :: hexDigits k r
  end.

Section Quote.
(** The Unicode side of the library is not part of the repository:
    the UTF-8 decoder, the encoder and the printable-rune tables for
    runes above Latin-1 are parameters. *)
Variable DecodeRuneInString : string -> Z * nat.
Variable AppendRune : Z -> bytes.
Variable isPrintTable : Z -> bool.

(** [strconv.IsPrint], with its fast check for Latin-1 written out. *)
Definition IsPrint (r : Z) : bool :=
  if r <=? 255 then
    if (32 <=? r) && (r <=? 126) then true
    else if (161 <=? r) && (r <=? 255) then negb (r =? 173)
    else false
  else isPrintTable r.

(** [appendEscapedRune] with the double quote as [quote] and both flags
    off, as [AppendQuote] calls it: the bytes appended. *)
Definition appendEscapedRune (r : Z) : bytes :=
  if (r =? 34) || (r =? 92) then [92; r]
  else if IsPrint r then (if r <? 128 then [r] else AppendRune r)
  else if r =? 7 then [92; 97]         (* \a *)
  else if r =? 8 then [92; 98]         (* \b *)
  else if r =? 12 then [92; 102]       (* \f *)
  else if r =? 10 then [92; 110]       (* \n *)
  else if r =? 13 then [92; 114]       (* \r *)
  else if r =? 9 then [92; 116]        (* \t *)
  else if r =? 11 then [92; 118]       (* \v *)
  else if (r <? 32) || (r =? 127) then
    [92; 120; lowerhex (Z.shiftr r 4); lowerhex (Z.land r 15)]
  else if negb (ValidRune r) then 92 :: 117 :: hexDigits 4 RuneError
  else if r <? 65536 then 92 :: 117 :: hexDigits 4 r
  else 92 :: 85 :: hexDigits 8 r.

(** The loop [for width := 0; len(s) > 0; s = s[width:]]: [skip] counts
    the bytes of the current rune still to be passed over. *)
Fixpoint quoteLoop (skip : nat) (s : string) : bytes :=
  match s with
  | EmptyString => []
  | String a rest =>
      match skip with
      | S k => quoteLoop k rest
      | O =>
          let b := Z.of_N (N_of_ascii a) in
          if b <? 128 then appendEscapedRune b ++ quoteLoop 0 rest
          else
            let '(r, width) := DecodeRuneInString s in
            if (Nat.eqb width 1) && (r =? RuneError) then
              [92; 120; lowerhex (Z.shiftr b 4); lowerhex (Z.land b 15)]
                ++ quoteLoop 0 rest
            else appendEscapedRune r ++ quoteLoop (width - 1) rest
      end
  end.

(** [strconv.AppendQuote(buf, s)] *)
Definition AppendQuote (buf : bytes) (s : string) : bytes :=
  buf ++ [34] ++ quoteLoop 0 s ++ [34].
End Quote.

End strconv.

(** ** JSON string literals (RFC 8259, section 7)

    The reading of a header value by a JSON parser: [unquote] returns the
    characters a string literal stands for and fails on anything that is
    not one.  Only the single-character escapes and [\u00XX] are decoded,
    which is all a byte string needs. *)

Module json.

Definition hexVal (c : Z) : option Z :=
  if (48 <=? c) && (c <=? 57) then Some (c - 48)
  else if (97 <=? c) && (c <=? 102) then Some (c - 87)
  else if (65 <=? c) && (c <=? 70) then Some (c - 55)
  else None.

(** The body of a literal after the opening quote, up to the closing one. *)
Fixpoint chars (fuel : nat) (l : bytes) : option bytes :=
  match fuel with
  | O => None
  | S f =>
    match l with
    | [34] => Some []
    | 92 :: c :: rest =>
        if c =? 117 then
          match rest with
          | h1 :: h2 :: h3 :: h4 :: rest' =>
              a ← hexVal h1; b ← hexVal h2; c ← hexVal h3; d ← hexVal h4;
              if (a =? 0) && (b =? 0)
              then tl ← chars f rest'; Some ((16 * c + d) :: tl)
              else None
          | _ => None
          end
        else
          v ← (if c =? 34 then Some 34 else if c =? 92 then Some 92
               else if c =? 47 then Some 47 else if c =? 98 then Some 8
               else if c =? 102 then Some 12 else if c =? 110 then Some 10
               else if c =? 114 then Some 13 else if c =? 116 then Some 9
               else None);
          tl ← chars f rest; Some (v :: tl)
    | c :: rest =>
        if (c <? 32) || (c =? 34) || (c =? 92) then None
        else tl ← chars f rest; Some (c :: tl)
    | [] => None
    end
  end.

Definition unquote (l : bytes) : option bytes :=
  match l with
  | 34 :: body => chars (length l) body
  | _ => None
  end.

End json.

(** ** math/big: the limbs of an integer *)

Module big.

(** [x.Bits()] for words of [W] bits: the magnitude of [x] in little-endian
    words, without leading zero words (none at all for zero). *)
Definition nwords (W : Z) (x : Z) : nat :=
  if Z.abs x =? 0 then 0%nat else S (Z.to_nat (Z.log2 (Z.abs x) / W)).

Definition Bits (W : Z) (x : Z) : list Z :=
  map (fun k => Z.shiftr (Z.abs x) (W * Z.of_nat k) mod 2 ^ W)
      (seq 0 (nwords W x)).

End big.

(** The byte-oriented packing of the specification: the magnitude of [x] as
    [n] bytes, most significant first, zero-filled on the left. *)
Fixpoint bigEndian (n : nat) (x : Z) : bytes :=
  match n with
  | O => []
  | S k => (Z.abs x / 256 ^ Z.of_nat k) mod 256 :: bigEndian k x
  end.

(** ** Sample collaborators

    Concrete stand-ins for the collaborators, used to run the engine on
    examples: the signatures they return have the lengths the real
    primitives guarantee, their contents are arbitrary. *)

Module Sample.

Definition sync (c : Claims) (alg : string)
  : (Claims * option bytes) + error := inl (c, None).

(** A [sync] that fails to serialise the claims. *)
Definition syncFails (c : Claims) (alg : string)
  : (Claims * option bytes) + error := inr (otherError 1).

Definition hashSum (h : Hash) (msg : bytes) : bytes :=
  replicate (hashSize h) 165.

Definition hmacSum (h : Hash) (secret msg : bytes) : bytes :=
  replicate (hashSize h) 255.

Definition ecdsa_Sign (r s : Z) (key : ecdsa_PrivateKey) (digest : bytes)
  : (Z * Z) + error := inl (r, s).

Definition rsa_SignPSS (key : rsa_PrivateKey) (h : Hash) (digest : bytes)
  : bytes + error := inl (replicate (rsaSize key) 251).

Definition rsa_SignPKCS1v15 (key : rsa_PrivateKey) (h : Hash)
    (digest : bytes) : bytes + error := inl (replicate (rsaSize key) 1).

Definition ed25519_Sign (key msg : bytes) : bytes :=
  replicate ed25519_SignatureSize 90.

Definition growslice (c : nat) : nat := c.

Definition DecodeRuneInString (s : string) : Z * nat :=
  (strconv.RuneError, 1%nat).
Definition AppendRune (r : Z) : bytes := [].
Definition isPrintTable (r : Z) : bool := false.

Definition claims : Claims := mkClaims (bytesOf "{}") EmptyString.

End Sample.

(** ** The signing engine *)

Section Sign.

Set Default Proof Using "Type".

(** Collaborators outside sign.go.  [sync] serialises the claims: it
    updates [Raw] and returns the header JSON when the claims carry extra
    header fields, [None] ([nil]) otherwise.  The cryptographic primitives
    are functions of their visible inputs; the random source of ECDSA and
    PSS is folded into them.  [ed25519_Sign] is what [ed25519.Sign] returns
    for a key it accepts; the check of the key's length that it makes first
    is written out in [EdDSASign]. *)
Variable sync : Claims -> string -> (Claims * option bytes) + error.
Variable hashSum : Hash -> bytes -> bytes.
Variable hmacSum : Hash -> bytes -> bytes -> bytes.
Variable ecdsa_Sign : ecdsa_PrivateKey -> bytes -> (Z * Z) + error.
Variable rsa_SignPSS : rsa_PrivateKey -> Hash -> bytes -> bytes + error.
Variable rsa_SignPKCS1v15 : rsa_PrivateKey -> Hash -> bytes -> bytes + error.
Variable ed25519_Sign : bytes -> bytes -> bytes.

(** [strconv.IntSize], the width of [int] and of [big.Word]. *)
Variable IntSize : Z.

(** The spare capacity the runtime adds when [append] has to move. *)
Variable growslice : nat -> nat.

Variable DecodeRuneInString : string -> Z * nat.
Variable AppendRune : Z -> bytes.
Variable isPrintTable : Z -> bool.

Definition AppendQuote : bytes -> string -> bytes :=
  strconv.AppendQuote DecodeRuneInString AppendRune isPrintTable.

(** [append(t, b)] *)
Definition append (t : slice) (b : Z) : slice :=
  if decide (len t < cap t)%nat
  then Slice (<[len t:=b]> (arr t)) (S (len t)) (moves t)
  else Slice (contents t ++ b :: replicate (growslice (cap t)) 0)
             (S (len t)) (S (moves t)).

(** *** newToken *)

(** The Go literals of the slow path. *)
Definition lit_alg : bytes := [123; 34] ++ bytesOf "alg" ++ [34; 58].
Definition lit_kid : bytes := [123; 34] ++ bytesOf "kid" ++ [34; 58].
Definition lit_comma_alg : bytes := [44; 34] ++ bytesOf "alg" ++ [34; 58].

(** Lines 201-213: the header JSON when [sync] supplied none. *)
Definition buildHeaderJSON (c : Claims) (alg : string) : bytes :=
  let headerJSON :=
    if String.eqb (KeyID c) EmptyString then [] ++ lit_alg
    else AppendQuote ([] ++ lit_kid) (KeyID c) ++ lit_comma_alg in
  AppendQuote headerJSON alg ++ [125].

(** Lines 215-223. *)
Definition newTokenSlow (c : Claims) (encSigLen : nat) (headerJSON : bytes)
  : option slice :=
  let headerLen := base64.EncodedLen (length headerJSON) in
  let l := (headerLen + 1 + base64.EncodedLen (length (Raw c)))%nat in
  let token := make l (l + 1 + encSigLen) in
  token ← encodeInto token 0 headerJSON;
  token ← setIndex token headerLen 46;
  encodeInto token (headerLen + 1) (Raw c).

(** Lines 192-198. *)
Definition newTokenFixed (c : Claims) (encSigLen : nat) (fixed : string)
  : option slice :=
  let l := (String.length fixed + base64.EncodedLen (length (Raw c)))%nat in
  let token := make l (l + 1 + encSigLen) in
  let token := copy token (bytesOf fixed) in
  encodeInto token (String.length fixed) (Raw c).

(** [None] is a panic. *)
Definition newToken (c : Claims) (alg : string) (encSigLen : nat)
    (headerJSON : option bytes) : option slice :=
  let fixed :=
    match headerJSON with
    | None => if String.eqb (KeyID c) EmptyString then fixedHeader alg
              else EmptyString
    | Some _ => EmptyString
    end in
  if negb (String.eqb fixed EmptyString) then newTokenFixed c encSigLen fixed
  else
    let headerJSON :=
      match headerJSON with
      | None => buildHeaderJSON c alg
      | Some h => h
      end in
    newTokenSlow c encSigLen headerJSON.

(** *** FormatWithoutSign *)

Definition FormatWithoutSign (c : Claims) (alg : string) : goret :=
  match sync c alg with
  | inr err => Return None (Some err)
  | inl (c, headerJSON) =>
      match newToken c alg 0 headerJSON with
      | None => Panic
      | Some token => Return (Some token) None
      end
  end.

(** *** ECDSASign *)

(** [sig[i] = v] where [sig] is the window of [n] bytes that starts at
    [base] in [mem]; the index is checked against the window. *)
Definition sigStore (mem : bytes) (base : nat) (n i : Z) (v : Z)
  : option bytes :=
  if decide (0 <= i < n)
  then Some (<[(base + Z.to_nat i)%nat := v]> mem)
  else None.

(** The number of rounds of
    [for bitCount := strconv.IntSize; bitCount > 0; bitCount -= 8]. *)
Definition wordRounds : nat := Z.to_nat ((IntSize + 7) / 8).

(** The inner loop: [i--; sig[i] = byte(word); word >>= 8]. *)
Fixpoint putWord (rounds : nat) (mem : bytes) (base : nat) (n i word : Z)
  : option (bytes * Z) :=
  match rounds with
  | O => Some (mem, i)
  | S k =>
      let i := i - 1 in
      mem ← sigStore mem base n i (word mod 256);
      putWord k mem base n i (Z.shiftr word 8)
  end.

(** The outer loop: [for _, word := range x.Bits()]. *)
Fixpoint putWords (words : list Z) (mem : bytes) (base : nat) (n i : Z)
  : option (bytes * Z) :=
  match words with
  | [] => Some (mem, i)
  | word :: rest =>
      '(mem, i) ← putWord wordRounds mem base n i word;
      putWords rest mem base n i
  end.

(** Lines 49-66: [s] from the end of [sig], then [r] from
    [len(sig) - paramLen]. *)
Definition packSignature (mem : bytes) (base : nat) (paramLen : nat)
    (r s : Z) : option bytes :=
  let n := Z.of_nat (length mem - base) in
  '(mem, _) ← putWords (big.Bits IntSize s) mem base n n;
  let i := n - Z.of_nat paramLen in
  '(mem, _) ← putWords (big.Bits IntSize r) mem base n i;
  Some mem.

(** The two loops once more, each with a log of the indices of [sig] it
    stores at, in the order of the stores.  The log is ghost state: the
    array and the cursor are those of [putWord] and [putWords]. *)
Fixpoint putWordLog (rounds : nat) (mem : bytes) (base : nat) (n i word : Z)
  : option (bytes * Z * list Z) :=
  match rounds with
  | O => Some (mem, i, [])
  | S k =>
      let i := i - 1 in
      mem ← sigStore mem base n i (word mod 256);
      '(mem, j, log) ← putWordLog k mem base n i (Z.shiftr word 8);
      Some (mem, j, i :: log)
  end.

Fixpoint putWordsLog (words : list Z) (mem : bytes) (base : nat) (n i : Z)
  : option (bytes * Z * list Z) :=
  match words with
  | [] => Some (mem, i, [])
  | word :: rest =>
      '(mem, i, log) ← putWordLog wordRounds mem base n i word;
      '(mem, i, more) ← putWordsLog rest mem base n i;
      Some (mem, i, log ++ more)
  end.

(** The bytes one pass of the inner loop stores, in the order stored:
    least significant first. *)
Fixpoint leBytes (rounds : nat) (word : Z) : bytes :=
  match rounds with
  | O => []
  | S k => word mod 256 :: leBytes k (Z.shiftr word 8)
  end.

(** Byte [k] of the magnitude of [x], counted from the least significant. *)
Definition byteAt (x : Z) (k : nat) : Z :=
  Z.shiftr (Z.abs x) (8 * Z.of_nat k) mod 256.

(** The bytes the loops store for a value of [paramLen] bytes: [paramLen]
    rounded up to whole words. *)
Definition wordSpan (paramLen : nat) : nat :=
  (wordRounds * ((paramLen + wordRounds - 1) / wordRounds))%nat.

Definition ECDSASign (c : Claims) (alg : string) (key : ecdsa_PrivateKey)
  : goret :=
  match sync c alg with
  | inr err => Return None (Some err)
  | inl (c, headerJSON) =>
  match hashLookup alg ECDSAAlgs with
  | inr err => Return None (Some err)
  | inl hash =>
      let paramLen := ((BitSize key + 7) / 8)%nat in
      match newToken c alg (base64.EncodedLen (paramLen * 2)) headerJSON with
      | None => Panic
      | Some token =>
      let digest := hashSum hash (contents token) in
      let token := append token 46 in
      match ecdsa_Sign key digest with
      | inr err => Return None (Some err)
      | inl (r, s) =>
          (* sig := token[len(token):cap(token)] *)
          let base := len token in
          let n := (cap token - len token)%nat in
          match packSignature (arr token) base paramLen r s with
          | None => Panic
          | Some mem =>
              (* encoding.Encode(sig, sig[len(sig)-2*paramLen:]) *)
              if decide (2 * paramLen <= n)%nat then
                match base64.EncodeInPlace mem base
                        (base + (n - 2 * paramLen)) (2 * paramLen) with
                | None => Panic
                | Some mem =>
                    Return (Some (full (Slice mem (len token) (moves token))))
                           None
                end
              else Panic
          end
      end
      end
  end
  end.

(** *** EdDSASign *)

Definition EdDSASign (c : Claims) (key : bytes) : goret :=
  match sync c EdDSA with
  | inr err => Return None (Some err)
  | inl (c, headerJSON) =>
      match newToken c EdDSA (base64.EncodedLen ed25519_SignatureSize)
              headerJSON with
      | None => Panic
      | Some token =>
          (* sig := ed25519.Sign(key, token), which checks len(key) first *)
          if decide (length key = ed25519_PrivateKeySize) then
            let sig := ed25519_Sign key (contents token) in
            let i := len token in
            let token := full token in
            match setIndex token i 46
                    ≫= fun t => encodeInto t (i + 1) sig with
            | None => Panic
            | Some token => Return (Some token) None
            end
          else Panic
      end
  end.

(** *** HMACSign *)

(** [digest.Sum(token[bufOffset:bufOffset])] followed by
    [encoding.Encode(token[len(token):cap(token)], ...)].  [Sum] appends
    the MAC to a slice of length zero whose capacity is what is left of
    the array after [bufOffset]: it stores in place when the MAC fits and
    hands back a new array otherwise. *)
Definition sumAndEncode (token : slice) (bufOffset : nat) (mac : bytes)
  : option bytes :=
  if decide (length mac <= cap token - bufOffset)%nat then
    let mem := list_inserts bufOffset mac (arr token) in
    base64.EncodeInPlace mem (len token) bufOffset (length mac)
  else
    base64.EncodeTo (arr token) (len token) (cap token) mac.

Definition HMACSign (c : Claims) (alg : string) (secret : bytes) : goret :=
  if decide (length secret = 0%nat) then Return None (Some errNoSecret)
  else
  match sync c alg with
  | inr err => Return None (Some err)
  | inl (c, headerJSON) =>
  match hashLookup alg HMACAlgs with
  | inr err => Return None (Some err)
  | inl hash =>
      (* digest.Size() of an HMAC is the size of its hash *)
      let size := hashSize hash in
      match newToken c alg (base64.EncodedLen size) headerJSON with
      | None => Panic
      | Some token =>
          let mac := hmacSum hash secret (contents token) in
          let token := append token 46 in
          if decide (size <= cap token)%nat then
            let bufOffset := (cap token - size)%nat in
            match sumAndEncode token bufOffset mac with
            | None => Panic
            | Some mem =>
                Return (Some (full (Slice mem (len token) (moves token))))
                       None
            end
          else Panic
      end
  end
  end.

(** *** RSASign *)

(** The test that [alg] is not empty and that [alg[0]] is the letter P. *)
Definition startsWithP (alg : string) : bool :=
  match alg with
  | String a _ => Ascii.eqb a "P"%char
  | EmptyString => false
  end.

(** [digest.Sum(buf)] with [buf := token[len(token):]]: the digest lands
    in the spare capacity when it fits there, and in a new array, leaving
    the token's array as it was, when it does not. *)
Definition sumIntoSpare (token : slice) (digest : bytes) : slice :=
  if decide (length digest <= cap token - len token)%nat
  then Slice (list_inserts (len token) digest (arr token))
             (len token) (moves token)
  else token.

Definition RSASign (c : Claims) (alg : string) (key : rsa_PrivateKey)
  : goret :=
  match sync c alg with
  | inr err => Return None (Some err)
  | inl (c, headerJSON) =>
  match hashLookup alg RSAAlgs with
  | inr err => Return None (Some err)
  | inl hash =>
      match newToken c alg (base64.EncodedLen (rsaSize key)) headerJSON with
      | None => Panic
      | Some token =>
          let digest := hashSum hash (contents token) in
          let token := sumIntoSpare token digest in
          let signed :=
            if startsWithP alg then rsa_SignPSS key hash digest
            else rsa_SignPKCS1v15 key hash digest in
          match signed with
          | inr err => Return None (Some err)
          | inl sig =>
              let i := len token in
              let token := full token in
              match setIndex token i 46
                      ≫= fun t => encodeInto t (i + 1) sig with
              | None => Panic
              | Some token => Return (Some token) None
              end
          end
      end
  end
  end.

(** *** The wire format

    The token as the specification describes it, to compare the engine's
    output with. *)

(** The header JSON that ends up encoded in the first segment. *)
Definition headerOf (c : Claims) (alg : string) (headerJSON : option bytes)
  : bytes :=
  match headerJSON with
  | Some h => h
  | None => buildHeaderJSON c alg
  end.

(** The encoded header, the delimiter, the encoded payload. *)
Definition unsignedPrefix (c : Claims) (alg : string)
    (headerJSON : option bytes) : bytes :=
  base64.encode (headerOf c alg headerJSON) ++ [46] ++ base64.encode (Raw c).

(** The unsigned prefix, the delimiter, the encoded signature. *)
Definition signedToken (prefix sig : bytes) : bytes :=
  prefix ++ [46] ++ base64.encode sig.

(** The segments of a token: the pieces between the delimiters. *)
Fixpoint segments (token : bytes) : list bytes :=
  match token with
  | [] => [[]]
  | ch :: rest =>
      if ch =? 46 then [] :: segments rest
      else match segments rest with
           | seg :: more => (ch :: seg) :: more
           | [] => [[ch]]
           end
  end.

(** A segment of base64url characters only (so without padding). *)
Definition urlSegment (seg : bytes) : Prop :=
  Forall (fun ch => base64.isURLChar ch = true) seg.

(** Exactly [k] segments, each of base64url characters only. *)
Definition wellFormed (k : nat) (token : bytes) : Prop :=
  length (segments token) = k /\ Forall urlSegment (segments token).

(** What the primitives promise about the sizes of their results:
    [Sum] returns [Size] bytes, an RSA signature is as long as the modulus,
    an Ed25519 signature has [SignatureSize] bytes. *)
Definition primitivesSized : Prop :=
  (forall h secret msg, length (hmacSum h secret msg) = hashSize h)
  /\ (forall key h d sig,
        rsa_SignPSS key h d = inl sig -> length sig = rsaSize key)
  /\ (forall key h d sig,
        rsa_SignPKCS1v15 key h d = inl sig -> length sig = rsaSize key)
  /\ (forall key msg, length (ed25519_Sign key msg) = ed25519_SignatureSize).

(** The token a signing function returns when all went well. *)
Definition finished (prefix sig : bytes) : goret :=
  Return (Some (Slice (signedToken prefix sig)
                      (length (signedToken prefix sig)) 0)) None.

(** How [RSASign] ends, given what the padding scheme returned. *)
Definition rsaOutcome (prefix : bytes) (signed : bytes + error) : goret :=
  match signed with
  | inr err => Return None (Some err)
  | inl sig => finished prefix sig
  end.

(** The characters [strconv.AppendQuote] writes the way JSON does: printable
    ASCII, and the five control characters whose Go escape is a JSON escape
    (backspace, tab, line feed, form feed, carriage return). *)
Definition jsonSafe (ch : Z) : bool :=
  ((32 <=? ch) && (ch <=? 126))
  || (ch =? 8) || (ch =? 9) || (ch =? 10) || (ch =? 12) || (ch =? 13).

(** The number a big-endian byte string denotes. *)
Definition beValue (l : bytes) : Z :=
  fold_left (fun acc b => acc * 256 + b) l 0.

(** * Properties *)

(** ** The codec *)

Import base64.

Ltac len_simpl :=
  unfold cap; cbn [len arr moves];
  repeat (progress (rewrite ?length_app, ?length_replicate, ?length_insert;
                    cbn [length])).

Local Arguments quad : simpl never.
Local Arguments tail1 : simpl never.
Local Arguments tail2 : simpl never.

Lemma storeAll_fits (vs mem : bytes) (i : nat) :
  (i + length vs <= length mem)%nat ->
  storeAll mem i vs = Some (take i mem ++ vs ++ drop (i + length vs) mem).
Proof.
  revert mem i. induction vs as [|v vs IH]; intros mem i Hfit;
    cbn [storeAll length] in *.
  - rewrite Nat.add_0_r. change ([] ++ ?l) with l. rewrite take_drop. reflexivity.
  - change (storeAll mem i (v :: vs))
      with (store mem i v ≫= fun mem' => storeAll mem' (S i) vs).
    unfold store. rewrite decide_True by lia. cbn [mbind option_bind].
    rewrite IH by (rewrite length_insert; lia).
    f_equal.
    rewrite (take_S_r _ _ v) by (apply list_lookup_insert_eq; lia).
    rewrite take_insert_ge by lia.
    rewrite drop_insert_lt by lia.
    replace (S i + length vs)%nat with (i + S (length vs))%nat by lia.
    rewrite <- app_assoc. reflexivity.
Qed.

Local Arguments storeAll : simpl never.

Lemma quad_length a b c : length (quad a b c) = 4%nat.
Proof. reflexivity. Qed.

Lemma encodeAt_correct (g rem : nat) : forall (mem : bytes) (d s : nat),
  (rem < 3)%nat -> (d + g <= s)%nat ->
  (s + 3 * g + rem <= length mem)%nat ->
  (d + 4 * g + EncodedLen rem <= length mem)%nat ->
  encodeAt g rem mem d s =
    Some (take d mem ++ encode (take (3 * g + rem) (drop s mem))
            ++ drop (d + 4 * g + EncodedLen rem) mem).
Proof.
  induction g as [|g IH]; intros mem d s Hrem Hgap Hsrc Hdst.
  - simpl encodeAt. rewrite Nat.mul_0_r, Nat.add_0_r in *. simpl (3 * 0 + rem)%nat.
    destruct rem as [|[|[|rem]]]; try lia.
    + simpl. rewrite Nat.add_0_r, take_drop. reflexivity.
    + unfold load.
      destruct (lookup_lt_is_Some_2 mem s ltac:(lia)) as [a Ha].
      rewrite Ha. simpl. rewrite (drop_S _ _ _ Ha). simpl take.
      rewrite take_0. simpl encode.
      change (EncodedLen 1) with 2%nat in *.
      rewrite storeAll_fits by (simpl; lia). reflexivity.
    + unfold load.
      destruct (lookup_lt_is_Some_2 mem s ltac:(lia)) as [a Ha].
      destruct (lookup_lt_is_Some_2 mem (s + 1) ltac:(lia)) as [b Hb].
      rewrite Ha, Hb. simpl.
      rewrite (drop_S _ _ _ Ha). replace (S s) with (s + 1)%nat by lia.
      rewrite (drop_S _ _ _ Hb). simpl take. rewrite take_0. simpl encode.
      change (EncodedLen 2) with 3%nat in *.
      rewrite storeAll_fits by (simpl; lia). reflexivity.
  - destruct (lookup_lt_is_Some_2 mem s ltac:(lia)) as [a Ha].
    destruct (lookup_lt_is_Some_2 mem (s + 1) ltac:(lia)) as [b Hb].
    destruct (lookup_lt_is_Some_2 mem (s + 2) ltac:(lia)) as [c Hc].
    assert (Hsplit : take (3 * S g + rem) (drop s mem)
                     = a :: b :: c :: take (3 * g + rem) (drop (s + 3) mem)).
    { rewrite (drop_S _ _ _ Ha). replace (S s) with (s + 1)%nat by lia.
      rewrite (drop_S _ _ _ Hb). replace (S (s + 1)) with (s + 2)%nat by lia.
      rewrite (drop_S _ _ _ Hc). replace (S (s + 2)) with (s + 3)%nat by lia.
      replace (3 * S g + rem)%nat with (S (S (S (3 * g + rem)))) by lia.
      reflexivity. }
    rewrite Hsplit.
    change (encode (a :: b :: c :: ?l)) with (quad a b c ++ encode l).
    cbn [encodeAt]. unfold load. rewrite Ha, Hb, Hc. cbn [mbind option_bind].
    rewrite storeAll_fits by (rewrite quad_length; lia).
    rewrite quad_length. cbn [mbind option_bind].
    set (mem' := take d mem ++ quad a b c ++ drop (d + 4) mem).
    assert (Hlen : length mem' = length mem).
    { unfold mem'. rewrite !length_app, length_take, length_drop, quad_length. lia. }
    rewrite IH by (rewrite ?Hlen; lia).
    f_equal.
    assert (Htake : take (d + 4) mem' = take d mem ++ quad a b c).
    { unfold mem'. rewrite app_assoc. apply take_app_length'.
      rewrite length_app, length_take, quad_length. lia. }
    assert (Hdrop : forall k, (d + 4 <= k)%nat -> drop k mem' = drop k mem).
    { intros k Hk. unfold mem'. rewrite app_assoc, drop_app_ge
        by (rewrite length_app, length_take, quad_length; lia).
      rewrite length_app, length_take, quad_length. rewrite drop_drop.
      f_equal. lia. }
    rewrite Htake, (Hdrop (s + 3)%nat), Hdrop by lia.
    rewrite <- !app_assoc. do 4 f_equal. lia.
Qed.


Lemma EncodedLen_split (n : nat) :
  EncodedLen n = (4 * (n / 3) + EncodedLen (n mod 3))%nat.
Proof.
  unfold EncodedLen.
  rewrite Nat.Div0.mod_mod.
  rewrite (Nat.div_small (n mod 3) 3) by (apply Nat.mod_upper_bound; lia).
  lia.
Qed.

Lemma EncodedLen_rem (n : nat) :
  (n mod 3 = 0 /\ EncodedLen (n mod 3) = 0
   \/ n mod 3 = 1 /\ EncodedLen (n mod 3) = 2
   \/ n mod 3 = 2 /\ EncodedLen (n mod 3) = 3)%nat.
Proof.
  pose proof (Nat.mod_upper_bound n 3 ltac:(lia)) as H.
  destruct (n mod 3)%nat as [|[|[|r]]]; try lia; auto.
Qed.

(** The raw bytes never outnumber their encoding: the gap between the two
    cursors at the start is at least the number of full groups. *)
Lemma EncodedLen_gap (n : nat) : (n + n / 3 <= EncodedLen n)%nat.
Proof.
  rewrite EncodedLen_split.
  pose proof (Nat.div_mod_eq n 3).
  destruct (EncodedLen_rem n) as [[? ?]|[[? ?]|[? ?]]]; lia.
Qed.

Lemma encode_length (src : bytes) : length (encode src) = EncodedLen (length src).
Proof.
  remember (length src) as n eqn:Hn. revert src Hn.
  induction n as [n IH] using lt_wf_ind. intros src Hn.
  destruct src as [|a [|b [|c rest]]]; subst n; try reflexivity.
  change (encode (a :: b :: c :: rest)) with (quad a b c ++ encode rest).
  rewrite length_app, quad_length, (IH (length rest)) by (simpl; lia || reflexivity).
  rewrite (EncodedLen_split (length (a :: b :: c :: rest))),
          (EncodedLen_split (length rest)).
  replace (length (a :: b :: c :: rest)) with (length rest + 1 * 3)%nat
    by (simpl; lia).
  rewrite Nat.div_add, Nat.Div0.mod_add by lia. lia.
Qed.

Lemma EncodeInPlace_tail (mem : bytes) (d n : nat) :
  (d + EncodedLen n = length mem)%nat ->
  EncodeInPlace mem d (length mem - n) n
    = Some (take d mem ++ encode (drop (length mem - n) mem)).
Proof.
  intros Hd.
  pose proof (EncodedLen_gap n) as Hgap.
  pose proof (EncodedLen_split n) as Hsplit.
  pose proof (Nat.div_mod_eq n 3) as Hdm.
  unfold EncodeInPlace.
  rewrite encodeAt_correct; try lia.
  - replace (3 * (n / 3) + n mod 3)%nat with n by lia.
    rewrite (take_ge (drop _ _)) by (rewrite length_drop; lia).
    rewrite (drop_ge mem (d + _ + _)) by lia.
    rewrite app_nil_r. reflexivity.
  - apply Nat.mod_upper_bound. lia.
Qed.

(** C4. In-place encoding of a raw signature staged at the highest offsets:
    the destination starts at [d], right after the delimiter, and ends with
    the array; the [n] raw bytes are the last [n] bytes of the array.  For
    every full group the last character stored lies below the first byte
    not yet read, and the call leaves in the destination the encoding of
    the raw bytes as they were staged, so none was overwritten before it
    was read. *)
Theorem EncodeInPlace_staged_at_tail (mem : bytes) (d n : nat) :
  (d + EncodedLen n = length mem)%nat ->
  (forall k, (k < n / 3)%nat ->
     (writeCursor d k + 3 < readCursor (length mem - n) (S k))%nat)
  /\ EncodeInPlace mem d (length mem - n) n
     = Some (take d mem ++ encode (drop (length mem - n) mem)).
Proof.
  intros Hd. split.
  - intros k Hk. pose proof (EncodedLen_gap n).
    unfold writeCursor, readCursor. lia.
  - apply EncodeInPlace_tail, Hd.
Qed.

(** ** newToken *)


Lemma encodeInto_fits (t : slice) (from : nat) (src : bytes) :
  (from + EncodedLen (length src) <= len t)%nat -> (len t <= cap t)%nat ->
  encodeInto t from src =
    Some (Slice (take from (arr t) ++ encode src
                   ++ drop (from + EncodedLen (length src)) (arr t))
                (len t) (moves t)).
Proof.
  intros Hfit Hcap. unfold encodeInto, EncodeTo, cap in *.
  rewrite decide_True by lia.
  rewrite decide_True by (rewrite encode_length; lia).
  rewrite storeAll_fits by (rewrite encode_length; lia).
  rewrite encode_length. reflexivity.
Qed.

Lemma encodeInto_over (t : slice) (pre old post src : bytes) (from : nat) :
  arr t = pre ++ old ++ post ->
  from = length pre ->
  length old = EncodedLen (length src) ->
  (length pre + length old <= len t)%nat -> (len t <= cap t)%nat ->
  encodeInto t from src =
    Some (Slice (pre ++ encode src ++ post) (len t) (moves t)).
Proof.
  intros Harr -> Hold Hfit Hcap.
  rewrite encodeInto_fits by lia.
  rewrite Harr, take_app_length, <- Hold.
  rewrite (app_assoc pre old post).
  rewrite drop_app_length' by (rewrite length_app; reflexivity).
  reflexivity.
Qed.

Lemma setIndex_over (t : slice) (pre post : bytes) (x v : Z) (i : nat) :
  arr t = pre ++ x :: post -> i = length pre -> (i < len t)%nat ->
  setIndex t i v = Some (Slice (pre ++ v :: post) (len t) (moves t)).
Proof.
  intros Harr -> Hi. unfold setIndex. rewrite decide_True by lia.
  rewrite Harr, insert_app_r_alt, Nat.sub_diag by lia. reflexivity.
Qed.

Lemma newTokenSlow_spec (c : Claims) (encSigLen : nat) (headerJSON : bytes) :
  newTokenSlow c encSigLen headerJSON =
    Some (Slice (encode headerJSON ++ [46] ++ encode (Raw c)
                   ++ replicate (1 + encSigLen) 0)
                (EncodedLen (length headerJSON) + 1
                   + EncodedLen (length (Raw c))) 0).
Proof.
  unfold newTokenSlow, make.
  set (hl := EncodedLen (length headerJSON)).
  set (pl := EncodedLen (length (Raw c))).
  replace (hl + 1 + pl + 1 + encSigLen)%nat
    with (hl + (1 + (pl + (1 + encSigLen))))%nat by lia.
  rewrite !replicate_add.
  assert (Hh : length (encode headerJSON) = hl) by apply encode_length.
  rewrite (encodeInto_over _ [] (replicate hl 0)
             (replicate 1 0 ++ replicate pl 0 ++ replicate (1 + encSigLen) 0)
             headerJSON 0);
    [ | reflexivity | reflexivity | apply length_replicate
      | len_simpl; lia | len_simpl; lia ].
  cbn [mbind option_bind app replicate].
  rewrite (setIndex_over _ (encode headerJSON)
             (replicate pl 0 ++ replicate (1 + encSigLen) 0) 0 46 hl);
    [ | reflexivity | congruence | len_simpl; lia ].
  cbn [mbind option_bind len moves].
  rewrite (encodeInto_over _ (encode headerJSON ++ [46]) (replicate pl 0)
             (replicate (1 + encSigLen) 0) (Raw c) (hl + 1));
    [ | cbn [arr]; rewrite <- app_assoc; reflexivity
      | len_simpl; rewrite Hh; reflexivity
      | apply length_replicate
      | len_simpl; rewrite Hh; lia
      | len_simpl; rewrite Hh; lia ].
  cbn [len moves]. rewrite <- app_assoc. reflexivity.
Qed.

Lemma bytesOf_length (s : string) : length (bytesOf s) = String.length s.
Proof. induction s as [|a s IH]; simpl; congruence. Qed.

Lemma newTokenFixed_spec (c : Claims) (encSigLen : nat) (fixed : string) :
  newTokenFixed c encSigLen fixed =
    Some (Slice (bytesOf fixed ++ encode (Raw c) ++ replicate (1 + encSigLen) 0)
                (String.length fixed + EncodedLen (length (Raw c))) 0).
Proof.
  unfold newTokenFixed, make, copy. cbn [len arr moves].
  set (fl := String.length fixed).
  set (pl := EncodedLen (length (Raw c))).
  assert (Hf : length (bytesOf fixed) = fl) by apply bytesOf_length.
  rewrite take_ge by lia.
  replace (fl + pl + 1 + encSigLen)%nat
    with (fl + (pl + (1 + encSigLen)))%nat by lia.
  rewrite !replicate_add.
  rewrite list_inserts_0_r by (rewrite length_replicate; exact Hf).
  rewrite (encodeInto_over _ (bytesOf fixed) (replicate pl 0)
             (replicate (1 + encSigLen) 0) (Raw c) fl);
    [ reflexivity | reflexivity | congruence | apply length_replicate
    | len_simpl; lia | len_simpl; lia ].
Qed.

(** The header literals of the switch are the encodings the slow path
    computes for the same identifier, followed by the delimiter. *)
Lemma fixedHeader_cases (c : Claims) (alg : string) :
  KeyID c = EmptyString ->
  fixedHeader alg = EmptyString
  \/ In alg fixedAlgs
     /\ bytesOf (fixedHeader alg) = encode (buildHeaderJSON c alg) ++ [46].
Proof.
  intros Hk. unfold buildHeaderJSON. rewrite Hk.
  unfold fixedHeader.
  repeat match goal with
         | |- context [String.eqb alg ?name] =>
             destruct (String.eqb_spec alg name) as [->|_];
             [ right; split;
               [ simpl; repeat (first [left; reflexivity | right])
               | vm_compute; reflexivity ] | ]
         end.
  left. reflexivity.
Qed.

Lemma In_fixedAlgs_fixedHeader (alg : string) :
  In alg fixedAlgs -> fixedHeader alg <> EmptyString.
Proof.
  intros H. simpl in H.
  repeat (destruct H as [<-|H]; [ vm_compute; discriminate | ]).
  contradiction.
Qed.

Lemma newToken_spec (c : Claims) (alg : string) (encSigLen : nat)
    (headerJSON : option bytes) :
  newToken c alg encSigLen headerJSON =
    Some (Slice (unsignedPrefix c alg headerJSON
                   ++ replicate (1 + encSigLen) 0)
                (length (unsignedPrefix c alg headerJSON)) 0).
Proof.
  assert (Hlen : forall h : bytes,
            length (encode h ++ [46] ++ encode (Raw c))
            = (EncodedLen (length h) + 1 + EncodedLen (length (Raw c)))%nat).
  { intros h. rewrite !length_app, !encode_length. simpl. lia. }
  unfold newToken, unsignedPrefix, headerOf.
  destruct headerJSON as [h|].
  - cbn [String.eqb negb]. rewrite newTokenSlow_spec, Hlen, <- !app_assoc.
    reflexivity.
  - destruct (String.eqb_spec (KeyID c) EmptyString) as [Hk|Hk].
    + destruct (fixedHeader_cases c alg Hk) as [He|[_ Hf]].
      * rewrite He. cbn [String.eqb negb].
        rewrite newTokenSlow_spec, Hlen, <- !app_assoc. reflexivity.
      * destruct (String.eqb_spec (fixedHeader alg) EmptyString) as [He|Hne].
        -- rewrite He in Hf. destruct (encode (buildHeaderJSON c alg)); discriminate.
        -- cbn [negb]. rewrite newTokenFixed_spec, Hf, <- !app_assoc.
           rewrite <- bytesOf_length, Hf. f_equal. f_equal.
           rewrite !length_app, !encode_length. simpl. lia.
    + cbn [String.eqb negb]. rewrite newTokenSlow_spec, Hlen, <- !app_assoc.
      reflexivity.
Qed.

(** ** The signing functions *)

Lemma contents_prefix (pre post : bytes) (m : nat) :
  contents (Slice (pre ++ post) (length pre) m) = pre.
Proof. unfold contents. cbn [len arr]. apply take_app_length. Qed.

Lemma append_spare (pre : bytes) (e m : nat) :
  append (Slice (pre ++ replicate (1 + e) 0) (length pre) m) 46
  = Slice ((pre ++ [46]) ++ replicate e 0) (length (pre ++ [46])) m.
Proof.
  unfold append. rewrite decide_True by (len_simpl; lia).
  cbn [len arr moves replicate Nat.add].
  rewrite insert_app_r_alt, Nat.sub_diag by lia.
  rewrite length_app, <- app_assoc. cbn [length list_insert app].
  f_equal. lia.
Qed.

(** [i := len(token); token = token[:cap(token)]; token[i] = '.';
    encoding.Encode(token[i+1:], sig)] over a spare capacity of exactly the
    delimiter and the encoded signature, whatever the spare bytes held. *)
Lemma delimit_and_encode (pre scratch sig : bytes) (m : nat) :
  length scratch = (1 + EncodedLen (length sig))%nat ->
  let token := Slice (pre ++ scratch) (length pre) m in
  setIndex (full token) (len token) 46
    ≫= (fun t => encodeInto t (len token + 1) sig)
  = Some (Slice (signedToken pre sig) (length (signedToken pre sig)) m).
Proof.
  intros Hs token. subst token. unfold full. cbn [len arr moves].
  destruct scratch as [|x rest]; [discriminate|].
  cbn [length] in Hs.
  assert (Hcap : cap (Slice (pre ++ x :: rest) (length pre) m)
                 = length (signedToken pre sig)).
  { unfold signedToken. len_simpl. rewrite encode_length. lia. }
  rewrite Hcap.
  rewrite (setIndex_over _ pre rest x 46 (length pre));
    [ | reflexivity | reflexivity
      | cbn [len]; unfold signedToken; len_simpl; lia ].
  cbn [mbind option_bind].
  rewrite (encodeInto_over _ (pre ++ [46]) rest [] sig (length pre + 1));
    [ | cbn [arr]; rewrite app_nil_r, <- app_assoc; reflexivity
      | len_simpl; reflexivity | lia
      | unfold signedToken; len_simpl; rewrite encode_length; lia
      | unfold signedToken; len_simpl; rewrite encode_length; lia ].
  cbn [len moves]. unfold signedToken.
  rewrite app_nil_r, <- app_assoc. reflexivity.
Qed.

Lemma EdDSASign_spec (c c' : Claims) (key : bytes) (headerJSON : option bytes) :
  sync c EdDSA = inl (c', headerJSON) ->
  length key = ed25519_PrivateKeySize ->
  let prefix := unsignedPrefix c' EdDSA headerJSON in
  let sig := ed25519_Sign key prefix in
  length sig = ed25519_SignatureSize ->
  EdDSASign c key = finished prefix sig.
Proof.
  intros Hsync Hkey prefix sig Hlen. unfold EdDSASign.
  rewrite Hsync, newToken_spec, decide_True by exact Hkey.
  fold prefix. rewrite contents_prefix. fold sig.
  rewrite (delimit_and_encode prefix _ sig 0)
    by (rewrite length_replicate, Hlen; reflexivity).
  reflexivity.
Qed.

Lemma sumIntoSpare_arr (pre spare digest : bytes) (m : nat) :
  exists scratch,
    sumIntoSpare (Slice (pre ++ spare) (length pre) m) digest
      = Slice (pre ++ scratch) (length pre) m
    /\ length scratch = length spare.
Proof.
  unfold sumIntoSpare. cbn [len arr moves]. case_decide.
  - exists (list_inserts 0 digest spare). split; [|apply length_inserts].
    f_equal.
    rewrite <- (Nat.add_0_r (length pre)) at 1. apply list_inserts_app_r.
  - exists spare. split; reflexivity.
Qed.

Lemma RSASign_spec (c c' : Claims) (alg : string) (key : rsa_PrivateKey)
    (headerJSON : option bytes) (hash : Hash) :
  sync c alg = inl (c', headerJSON) ->
  hashLookup alg RSAAlgs = inl hash ->
  let prefix := unsignedPrefix c' alg headerJSON in
  let digest := hashSum hash prefix in
  let signed := if startsWithP alg then rsa_SignPSS key hash digest
                else rsa_SignPKCS1v15 key hash digest in
  (forall sig, signed = inl sig -> length sig = rsaSize key) ->
  RSASign c alg key = rsaOutcome prefix signed.
Proof.
  intros Hsync Hlook prefix digest signed Hlen.
  unfold RSASign. rewrite Hsync, Hlook, newToken_spec.
  fold prefix. rewrite contents_prefix. fold digest. fold signed.
  destruct signed as [sig|err] eqn:Hsigned; [|reflexivity].
  destruct (sumIntoSpare_arr prefix
              (replicate (1 + EncodedLen (rsaSize key)) 0) digest 0)
    as (scratch & -> & Hscratch).
  rewrite (delimit_and_encode prefix scratch sig 0)
    by (rewrite Hscratch, length_replicate, (Hlen sig eq_refl); reflexivity).
  reflexivity.
Qed.

Lemma inserts_at_tail (pre raw : bytes) (e : nat) :
  (length raw <= e)%nat ->
  list_inserts (length pre + e - length raw) raw (pre ++ replicate e 0)
  = (pre ++ replicate (e - length raw) 0) ++ raw.
Proof.
  intros Hle.
  replace e with ((e - length raw) + length raw)%nat at 2 by lia.
  rewrite replicate_add, app_assoc.
  replace (length pre + e - length raw)%nat
    with (length (pre ++ replicate (e - length raw) 0%Z) + 0)%nat
    by (len_simpl; lia).
  rewrite list_inserts_app_r. f_equal.
  rewrite <- (app_nil_r (replicate (length raw) 0)).
  rewrite list_inserts_0_r by (rewrite length_replicate; reflexivity).
  apply app_nil_r.
Qed.

(** Encoding in place a signature staged behind [pre] and some filler. *)
Lemma EncodeInPlace_staged (pre filler raw : bytes) :
  (length filler + length raw = EncodedLen (length raw))%nat ->
  EncodeInPlace ((pre ++ filler) ++ raw) (length pre)
    (length pre + length filler) (length raw)
  = Some (pre ++ encode raw).
Proof.
  intros Hlen.
  replace (length pre + length filler)%nat
    with (length ((pre ++ filler) ++ raw) - length raw)%nat by (len_simpl; lia).
  rewrite EncodeInPlace_tail by (len_simpl; lia).
  rewrite <- app_assoc, take_app_length.
  rewrite app_assoc, drop_app_length' by (len_simpl; lia).
  reflexivity.
Qed.

Lemma HMACSign_spec (c c' : Claims) (alg : string) (secret : bytes)
    (headerJSON : option bytes) (hash : Hash) :
  length secret <> 0%nat ->
  sync c alg = inl (c', headerJSON) ->
  hashLookup alg HMACAlgs = inl hash ->
  let prefix := unsignedPrefix c' alg headerJSON in
  let mac := hmacSum hash secret prefix in
  length mac = hashSize hash ->
  HMACSign c alg secret = finished prefix mac.
Proof.
  intros Hsecret Hsync Hlook prefix mac Hlen.
  unfold HMACSign. rewrite decide_False by exact Hsecret.
  rewrite Hsync, Hlook, newToken_spec. fold prefix.
  rewrite contents_prefix. fold mac. rewrite append_spare.
  pose proof (EncodedLen_gap (hashSize hash)) as Hgap.
  set (e := EncodedLen (hashSize hash)) in *.
  set (pre := prefix ++ [46]).
  assert (Hcap : cap (Slice (pre ++ replicate e 0) (length pre) 0)
                 = (length pre + e)%nat) by (len_simpl; lia).
  cbv zeta. rewrite Hcap.
  rewrite decide_True by lia.
  unfold sumAndEncode. rewrite Hcap. cbn [arr len moves].
  rewrite decide_True by lia.
  rewrite <- Hlen, inserts_at_tail by lia.
  replace (length pre + e - length mac)%nat
    with (length pre + length (replicate (e - length mac) 0%Z))%nat
    by (rewrite length_replicate; lia).
  rewrite (EncodeInPlace_staged pre (replicate (e - length mac) 0) mac)
    by (rewrite length_replicate; subst e; rewrite <- Hlen in Hgap |- *; lia).
  unfold finished, full, cap, signedToken, pre. cbn [arr len moves].
  rewrite <- !app_assoc. reflexivity.
Qed.

(** ** Packing r and s *)

Lemma leBytes_length (k : nat) (w : Z) : length (leBytes k w) = k.
Proof. revert w. induction k as [|k IH]; intros w; simpl; auto. Qed.

Lemma putWord_spec (k : nat) : forall (mem : bytes) (base n i : nat) (word : Z),
  (k <= i)%nat -> (i <= n)%nat -> (base + n <= length mem)%nat ->
  putWord k mem base (Z.of_nat n) (Z.of_nat i) word =
    Some (take (base + i - k) mem ++ rev (leBytes k word) ++ drop (base + i) mem,
          Z.of_nat (i - k)).
Proof.
  induction k as [|k IH]; intros mem base n i word Hk Hi Hn.
  - cbn [putWord leBytes rev app]. rewrite !Nat.sub_0_r, take_drop. reflexivity.
  - cbn [putWord]. unfold sigStore. rewrite decide_True by lia.
    cbn [mbind option_bind].
    replace (Z.of_nat i - 1) with (Z.of_nat (i - 1)) by lia.
    rewrite Nat2Z.id.
    rewrite IH by (rewrite ?length_insert; lia).
    f_equal. f_equal; [|f_equal; lia].
    rewrite take_insert_ge by lia.
    replace (base + (i - 1) - k)%nat with (base + i - S k)%nat by lia.
    f_equal. cbn [leBytes rev]. rewrite <- app_assoc. f_equal.
    rewrite drop_insert_ge by lia.
    replace (base + (i - 1) - (base + (i - 1)))%nat with 0%nat by lia.
    destruct (lookup_lt_is_Some_2 mem (base + (i - 1)) ltac:(lia)) as [y Hy].
    rewrite (drop_S _ _ _ Hy). cbn [list_insert app].
    replace (S (base + (i - 1))) with (base + i)%nat by lia. reflexivity.
Qed.

Lemma putWords_spec (words : list Z) :
  forall (mem : bytes) (base n i : nat),
  (wordRounds * length words <= i)%nat -> (i <= n)%nat ->
  (base + n <= length mem)%nat ->
  putWords words mem base (Z.of_nat n) (Z.of_nat i) =
    Some (take (base + i - wordRounds * length words) mem
            ++ rev (concat (map (leBytes wordRounds) words))
            ++ drop (base + i) mem,
          Z.of_nat (i - wordRounds * length words)).
Proof.
  induction words as [|w rest IH]; intros mem base n i Hk Hi Hn.
  - cbn [putWords map concat rev app length].
    rewrite Nat.mul_0_r, !Nat.sub_0_r, take_drop. reflexivity.
  - cbn [putWords length] in *.
    rewrite putWord_spec by lia. cbn [mbind option_bind].
    set (mem1 := take (base + i - wordRounds) mem
                   ++ rev (leBytes wordRounds w) ++ drop (base + i) mem).
    assert (Hl1 : length (take (base + i - wordRounds) mem)
                  = (base + i - wordRounds)%nat)
      by (rewrite length_take; lia).
    assert (Hmem1 : length mem1 = length mem).
    { unfold mem1. rewrite !length_app, Hl1, length_rev, leBytes_length,
        length_drop. lia. }
    rewrite IH by (rewrite ?Hmem1; lia).
    f_equal. f_equal; [|f_equal; lia].
    cbn [map concat]. rewrite rev_app_distr, <- app_assoc.
    unfold mem1.
    rewrite take_app_le by lia. rewrite take_take.
    replace (base + (i - wordRounds) - wordRounds * length rest)%nat
      with (base + i - wordRounds * S (length rest))%nat by lia.
    rewrite Nat.min_l by lia.
    f_equal. f_equal.
    rewrite drop_app_length' by lia. reflexivity.
Qed.

Lemma leBytes_map (k : nat) : forall w : Z,
  leBytes k w = map (fun t => Z.shiftr w (8 * Z.of_nat t) mod 256) (seq 0 k).
Proof.
  induction k as [|k IH]; intros w; [reflexivity|].
  cbn [leBytes seq map]. rewrite IH, <- seq_shift, map_map.
  f_equal. apply map_ext. intros t.
  rewrite Z.shiftr_shiftr by lia. do 2 f_equal. lia.
Qed.

Lemma bigEndian_byteAt (n : nat) (x : Z) :
  bigEndian n x = rev (map (byteAt x) (seq 0 n)).
Proof.
  induction n as [|n IH]; [reflexivity|].
  rewrite seq_S, map_app, rev_app_distr. cbn [bigEndian map rev app Nat.add].
  rewrite IH. f_equal. unfold byteAt.
  rewrite Z.shiftr_div_pow2 by lia.
  change 256 with (2 ^ 8). rewrite <- Z.pow_mul_r by lia. reflexivity.
Qed.

(** A byte of a word is a byte of the whole number. *)
Lemma byte_of_word (a : Z) (K m t : nat) :
  (t < K)%nat ->
  Z.shiftr (Z.shiftr a (8 * Z.of_nat K * Z.of_nat m) mod 2 ^ (8 * Z.of_nat K))
           (8 * Z.of_nat t) mod 256
  = Z.shiftr a (8 * Z.of_nat (K * m + t)) mod 256.
Proof.
  intros Ht. change 256 with (2 ^ 8).
  apply Z.bits_inj'. intros i Hi.
  destruct (Z.lt_ge_cases i 8) as [Hlt|Hge].
  - rewrite !Z.mod_pow2_bits_low, !Z.shiftr_spec by lia.
    rewrite Z.mod_pow2_bits_low, Z.shiftr_spec by lia.
    f_equal. lia.
  - rewrite !Z.mod_pow2_bits_high by lia. reflexivity.
Qed.

Lemma map_seq_from {A} (f : nat -> A) (K : nat) : forall a : nat,
  map f (seq a K) = map (fun t => f (a + t)%nat) (seq 0 K).
Proof.
  induction K as [|K IH]; intros a; [reflexivity|].
  cbn [seq map]. rewrite Nat.add_0_r. f_equal.
  rewrite IH, <- seq_shift, map_map.
  apply map_ext. intros t. f_equal. lia.
Qed.

Lemma concat_seq_blocks {A} (f : nat -> A) (K n : nat) :
  concat (map (fun m => map (fun t => f (K * m + t)%nat) (seq 0 K)) (seq 0 n))
  = map f (seq 0 (K * n)).
Proof.
  induction n as [|n IH].
  - rewrite Nat.mul_0_r. reflexivity.
  - rewrite seq_S, map_app, concat_app, IH. cbn [map concat Nat.add].
    rewrite app_nil_r.
    replace (K * S n)%nat with (K * n + K)%nat by lia.
    rewrite seq_app, map_app. f_equal. cbn [Nat.add].
    symmetry. apply map_seq_from.
Qed.

Lemma packed_words_bigEndian (K : nat) (x : Z) :
  rev (concat (map (leBytes K) (big.Bits (8 * Z.of_nat K) x)))
  = bigEndian (K * big.nwords (8 * Z.of_nat K) x) x.
Proof.
  rewrite bigEndian_byteAt. f_equal.
  unfold big.Bits. rewrite map_map.
  rewrite <- (concat_seq_blocks (byteAt x)).
  f_equal. apply map_ext. intros m.
  rewrite leBytes_map. apply map_ext_in. intros t Ht.
  apply in_seq in Ht. unfold byteAt.
  rewrite <- byte_of_word by lia. reflexivity.
Qed.

Lemma byteAt_high (x : Z) (m k : nat) :
  Z.abs x < 2 ^ (8 * Z.of_nat m) -> (m <= k)%nat -> byteAt x k = 0.
Proof.
  intros Hx Hk. unfold byteAt.
  rewrite Z.shiftr_div_pow2 by lia.
  rewrite Z.div_small; [reflexivity|].
  split; [lia|].
  apply Z.lt_le_trans with (1 := Hx).
  apply Z.pow_le_mono_r; lia.
Qed.

Lemma bigEndian_pad (x : Z) (m a : nat) :
  Z.abs x < 2 ^ (8 * Z.of_nat m) ->
  bigEndian (a + m) x = replicate a 0 ++ bigEndian m x.
Proof.
  intros Hx. induction a as [|a IH]; [reflexivity|].
  cbn [Nat.add bigEndian replicate app]. rewrite IH. f_equal.
  pose proof (byteAt_high x m (a + m) Hx ltac:(lia)) as H0.
  unfold byteAt in H0. rewrite Z.shiftr_div_pow2 in H0 by lia.
  rewrite <- H0. change 256 with (2 ^ 8).
  rewrite <- Z.pow_mul_r by lia. reflexivity.
Qed.

(** The words of [x] hold all of [x]. *)
Lemma nwords_holds (W x : Z) :
  0 < W -> Z.abs x < 2 ^ (W * Z.of_nat (big.nwords W x)).
Proof.
  intros HW. unfold big.nwords.
  destruct (Z.eqb_spec (Z.abs x) 0) as [->|Hne];
    [apply Z.pow_pos_nonneg; lia|].
  assert (Hpos : 0 < Z.abs x) by lia.
  pose proof (Z.log2_spec _ Hpos) as [_ Hlt].
  pose proof (Z.log2_nonneg (Z.abs x)) as Hl.
  apply Z.lt_le_trans with (1 := Hlt).
  apply Z.pow_le_mono_r; [lia|].
  rewrite Nat2Z.inj_succ, Z2Nat.id by (apply Z.div_pos; lia).
  pose proof (Z.mod_pos_bound (Z.log2 (Z.abs x)) W HW).
  pose proof (Z.div_mod (Z.log2 (Z.abs x)) W ltac:(lia)).
  nia.
Qed.

(** A value of at most [p] bytes has at most [p] bytes rounded up to whole
    words. *)
Lemma nwords_span (K p : nat) (x : Z) :
  (0 < K)%nat -> Z.abs x < 2 ^ (8 * Z.of_nat p) ->
  (K * big.nwords (8 * Z.of_nat K) x <= K * ((p + K - 1) / K))%nat.
Proof.
  intros HK Hx. apply Nat.mul_le_mono_l. unfold big.nwords.
  destruct (Z.eqb_spec (Z.abs x) 0) as [|Hne]; [lia|].
  assert (Hpos : 0 < Z.abs x) by lia.
  assert (Hp : (0 < p)%nat).
  { destruct p; [|lia]. simpl in Hx. lia. }
  apply Z.log2_lt_pow2 in Hx; [|exact Hpos].
  pose proof (Z.log2_nonneg (Z.abs x)) as Hl.
  set (q := Z.log2 (Z.abs x) / (8 * Z.of_nat K)).
  assert (Hq : 0 <= q) by (apply Z.div_pos; lia).
  assert (Hq' : 8 * Z.of_nat K * q <= Z.log2 (Z.abs x))
    by (apply Z.mul_div_le; lia).
  assert (Hle : (K * Z.to_nat q <= p - 1)%nat) by nia.
  assert (Hdiv : (Z.to_nat q <= (p - 1) / K)%nat)
    by (apply Nat.div_le_lower_bound; lia).
  replace (p + K - 1)%nat with ((p - 1) + 1 * K)%nat by lia.
  rewrite Nat.div_add by lia. lia.
Qed.

Lemma Bits_length (W x : Z) : length (big.Bits W x) = big.nwords W x.
Proof. unfold big.Bits. rewrite length_map, length_seq. reflexivity. Qed.

(** One pass of the outer loop over a zeroed field of [a] bytes that ends at
    the cursor leaves the value right-justified in the field. *)
Lemma putWords_value (pre post : bytes) (a n : nat) (x : Z) :
  IntSize = 8 * Z.of_nat wordRounds -> (0 < wordRounds)%nat ->
  (wordRounds * big.nwords IntSize x <= a)%nat ->
  (a <= n)%nat -> (n <= a + length post)%nat ->
  exists i,
    putWords (big.Bits IntSize x) (pre ++ replicate a 0 ++ post)
      (length pre) (Z.of_nat n) (Z.of_nat a)
    = Some (pre ++ bigEndian a x ++ post, i).
Proof.
  intros HW HK Hfit Han Hn.
  rewrite putWords_spec;
    [ | rewrite Bits_length; exact Hfit | exact Han
      | rewrite !length_app, length_replicate; lia ].
  eexists. f_equal. f_equal.
  rewrite Bits_length. rewrite HW at 1 2. rewrite packed_words_bigEndian.
  rewrite <- HW.
  set (k := (wordRounds * big.nwords IntSize x)%nat) in *.
  rewrite take_app_ge, take_app_le by (rewrite ?length_replicate; lia).
  rewrite take_replicate, Nat.min_l by lia.
  rewrite (app_assoc pre), drop_app_length'
    by (rewrite length_app, length_replicate; reflexivity).
  rewrite <- app_assoc. f_equal.
  replace (length pre + a - k - length pre)%nat with (a - k)%nat by lia.
  rewrite app_assoc. f_equal.
  replace a with ((a - k) + k)%nat at 2 by lia.
  symmetry. apply bigEndian_pad.
  pose proof (nwords_holds IntSize x ltac:(lia)) as Hx.
  replace (8 * Z.of_nat k) with (IntSize * Z.of_nat (big.nwords IntSize x))
    by (unfold k; lia).
  exact Hx.
Qed.

Lemma wordSpan_ge (p : nat) : (0 < wordRounds)%nat -> (p <= wordSpan p)%nat.
Proof.
  intros HK. unfold wordSpan.
  pose proof (Nat.div_mod_eq (p + wordRounds - 1) wordRounds).
  pose proof (Nat.mod_upper_bound (p + wordRounds - 1) wordRounds ltac:(lia)).
  lia.
Qed.

(** Lines 49-66 over the zeroed tail that [make] left: the last
    [2 * paramLen] bytes end up as r then s, each of [paramLen] bytes. *)
Lemma packSignature_spec (pre : bytes) (n p : nat) (r s : Z) :
  IntSize = 8 * Z.of_nat wordRounds -> (0 < wordRounds)%nat ->
  (p + wordSpan p <= n)%nat ->
  Z.abs r < 2 ^ (8 * Z.of_nat p) -> Z.abs s < 2 ^ (8 * Z.of_nat p) ->
  packSignature (pre ++ replicate n 0) (length pre) p r s
  = Some ((pre ++ replicate (n - 2 * p) 0) ++ bigEndian p r ++ bigEndian p s).
Proof.
  intros HW HK Hspace Hr Hs.
  pose proof (wordSpan_ge p HK) as Hge.
  pose proof (nwords_span wordRounds p r HK Hr) as Hnr.
  pose proof (nwords_span wordRounds p s HK Hs) as Hns.
  rewrite <- HW in Hnr, Hns. fold (wordSpan p) in Hnr, Hns.
  unfold packSignature.
  replace (length (pre ++ replicate n 0%Z) - length pre)%nat with n
    by (rewrite length_app, length_replicate; lia).
  destruct (putWords_value pre [] n n s HW HK ltac:(lia) ltac:(lia)
              ltac:(simpl; lia)) as [i1 H1].
  rewrite !app_nil_r in H1. rewrite H1. cbn [mbind option_bind].
  replace (Z.of_nat n - Z.of_nat p) with (Z.of_nat (n - p)) by lia.
  replace n with ((n - p) + p)%nat at 1 by lia.
  rewrite (bigEndian_pad s p (n - p) Hs).
  destruct (putWords_value pre (bigEndian p s) (n - p) n r HW HK
              ltac:(lia) ltac:(lia)) as [i2 H2].
  { assert (length (bigEndian p s) = p) as ->; [|lia].
    rewrite bigEndian_byteAt, length_rev, length_map, length_seq. reflexivity. }
  rewrite H2. cbn [mbind option_bind]. f_equal.
  replace (n - p)%nat with ((n - 2 * p) + p)%nat by lia.
  rewrite (bigEndian_pad r p (n - 2 * p) Hr).
  rewrite <- !app_assoc. reflexivity.
Qed.

(** Whatever the values, a pass that does not panic stays inside the window:
    the array keeps its length and the bytes before the window. *)
Lemma putWord_frame (k : nat) : forall (mem mem' : bytes) (base : nat)
    (n i i' word : Z),
  putWord k mem base n i word = Some (mem', i') ->
  length mem' = length mem /\ take base mem' = take base mem.
Proof.
  induction k as [|k IH]; intros mem mem' base n i i' word H.
  - cbn [putWord] in H. injection H as <- _. split; reflexivity.
  - cbn [putWord] in H. unfold sigStore in H.
    case_decide; [|discriminate]. cbn [mbind option_bind] in H.
    apply IH in H as [Hl Ht]. rewrite Hl, Ht, length_insert.
    split; [reflexivity|]. apply take_insert_ge. lia.
Qed.

Lemma putWords_frame (words : list Z) : forall (mem mem' : bytes) (base : nat)
    (n i i' : Z),
  putWords words mem base n i = Some (mem', i') ->
  length mem' = length mem /\ take base mem' = take base mem.
Proof.
  induction words as [|w rest IH]; intros mem mem' base n i i' H.
  - cbn [putWords] in H. injection H as <- _. split; reflexivity.
  - cbn [putWords] in H.
    destruct (putWord wordRounds mem base n i w) as [[mem1 i1]|] eqn:H1;
      [|discriminate].
    cbn [mbind option_bind] in H.
    apply putWord_frame in H1 as [Hl1 Ht1].
    apply IH in H as [Hl Ht]. split; congruence.
Qed.

Lemma packSignature_frame (mem mem' : bytes) (base p : nat) (r s : Z) :
  packSignature mem base p r s = Some mem' ->
  length mem' = length mem /\ take base mem' = take base mem.
Proof.
  unfold packSignature. intros H.
  destruct (putWords (big.Bits IntSize s) mem base _ _) as [[mem1 i1]|] eqn:H1;
    [|discriminate].
  cbn [mbind option_bind] in H.
  destruct (putWords (big.Bits IntSize r) mem1 base _ _) as [[mem2 i2]|] eqn:H2;
    [|discriminate].
  cbn [mbind option_bind] in H. injection H as <-.
  apply putWords_frame in H1 as [? ?]. apply putWords_frame in H2 as [? ?].
  split; congruence.
Qed.

(** What [ECDSASign] does once [sync], the family lookup and the primitive
    have succeeded: a panic, or the token over whatever raw bytes the loops
    left in the last [2 * paramLen] bytes of the array. *)
Lemma ECDSASign_outcome (c c' : Claims) (alg : string) (key : ecdsa_PrivateKey)
    (headerJSON : option bytes) (hash : Hash) (r s : Z) :
  sync c alg = inl (c', headerJSON) ->
  hashLookup alg ECDSAAlgs = inl hash ->
  let prefix := unsignedPrefix c' alg headerJSON in
  ecdsa_Sign key (hashSum hash prefix) = inl (r, s) ->
  ECDSASign c alg key = Panic
  \/ exists raw, length raw = (2 * ((BitSize key + 7) / 8))%nat
       /\ ECDSASign c alg key = finished prefix raw.
Proof.
  intros Hsync Hlook prefix Hsign.
  unfold ECDSASign. rewrite Hsync, Hlook, newToken_spec. fold prefix.
  rewrite contents_prefix, Hsign, append_spare.
  set (p := ((BitSize key + 7) / 8)%nat).
  set (pre := prefix ++ [46]).
  replace (p * 2)%nat with (2 * p)%nat by lia.
  pose proof (EncodedLen_gap (2 * p)) as Hgap.
  set (e := EncodedLen (2 * p)) in *.
  cbn [arr len moves].
  destruct (packSignature (pre ++ replicate e 0) (length pre) p r s)
    as [mem|] eqn:Hpack; [|left; reflexivity].
  right. apply packSignature_frame in Hpack as [Hl Ht].
  rewrite length_app, length_replicate in Hl.
  rewrite take_app_length in Ht.
  assert (Hcap : cap (Slice (pre ++ replicate e 0) (length pre) 0)
                 = (length pre + e)%nat) by (len_simpl; lia).
  rewrite Hcap.
  rewrite decide_True by lia.
  replace (length pre + (length pre + e - length pre - 2 * p))%nat
    with (length mem - 2 * p)%nat by lia.
  rewrite EncodeInPlace_tail by (fold e; lia).
  exists (drop (length mem - 2 * p) mem). split.
  - rewrite length_drop. lia.
  - unfold finished, signedToken, full, cap. cbn [arr len moves].
    rewrite Ht. unfold pre. rewrite <- !app_assoc. reflexivity.
Qed.

Lemma ECDSASign_spec (c c' : Claims) (alg : string) (key : ecdsa_PrivateKey)
    (headerJSON : option bytes) (hash : Hash) (r s : Z) :
  sync c alg = inl (c', headerJSON) ->
  hashLookup alg ECDSAAlgs = inl hash ->
  let prefix := unsignedPrefix c' alg headerJSON in
  let paramLen := ((BitSize key + 7) / 8)%nat in
  ecdsa_Sign key (hashSum hash prefix) = inl (r, s) ->
  IntSize = 8 * Z.of_nat wordRounds -> (0 < wordRounds)%nat ->
  (paramLen + wordSpan paramLen <= EncodedLen (2 * paramLen))%nat ->
  Z.abs r < 2 ^ (8 * Z.of_nat paramLen) ->
  Z.abs s < 2 ^ (8 * Z.of_nat paramLen) ->
  ECDSASign c alg key
  = finished prefix (bigEndian paramLen r ++ bigEndian paramLen s).
Proof.
  intros Hsync Hlook prefix p Hsign HW HK Hspace Hr Hs.
  unfold ECDSASign. rewrite Hsync, Hlook, newToken_spec. fold prefix.
  rewrite contents_prefix, Hsign, append_spare. fold p.
  set (pre := prefix ++ [46]).
  replace (p * 2)%nat with (2 * p)%nat by lia.
  set (e := EncodedLen (2 * p)) in *.
  cbn [arr len moves].
  rewrite packSignature_spec by assumption.
  assert (Hcap : cap (Slice (pre ++ replicate e 0) (length pre) 0)
                 = (length pre + e)%nat) by (len_simpl; lia).
  rewrite Hcap.
  pose proof (wordSpan_ge p HK).
  rewrite decide_True by lia.
  assert (Hraw : length (bigEndian p r ++ bigEndian p s) = (2 * p)%nat).
  { rewrite length_app, !bigEndian_byteAt, !length_rev, !length_map, !length_seq.
    lia. }
  pose proof (EncodeInPlace_staged pre (replicate (e - 2 * p) 0)
                (bigEndian p r ++ bigEndian p s)) as Henc.
  rewrite length_replicate, Hraw in Henc.
  replace (length pre + (length pre + e - length pre - 2 * p))%nat
    with (length pre + (e - 2 * p))%nat by lia.
  rewrite Henc by (fold e; lia).
  unfold finished, signedToken, full, cap, pre. cbn [arr len moves].
  rewrite <- !app_assoc. reflexivity.
Qed.

(** ** Segments and the alphabet *)

Lemma sextet_url (v : Z) : isURLChar (sextet v) = true.
Proof.
  unfold sextet.
  assert (H : (Z.to_nat (Z.land v 63) < 64)%nat).
  { change 63 with (Z.ones 6). rewrite Z.land_ones by lia.
    pose proof (Z.mod_pos_bound v (2 ^ 6) ltac:(lia)). lia. }
  revert H. generalize (Z.to_nat (Z.land v 63)). intros k Hk.
  do 64 (destruct k as [|k]; [reflexivity|]). lia.
Qed.

Lemma encode_url (src : bytes) : urlSegment (encode src).
Proof.
  unfold urlSegment.
  remember (length src) as n eqn:Hn. revert src Hn.
  induction n as [n IH] using lt_wf_ind. intros src Hn.
  destruct src as [|a [|b [|c rest]]].
  - constructor.
  - repeat constructor; apply sextet_url.
  - repeat constructor; apply sextet_url.
  - change (encode (a :: b :: c :: rest)) with (quad a b c ++ encode rest).
    apply Forall_app. split.
    + repeat constructor; apply sextet_url.
    + apply (IH (length rest)); [subst n; simpl; lia | reflexivity].
Qed.

Lemma segments_last (seg : bytes) : urlSegment seg -> segments seg = [seg].
Proof.
  induction 1 as [|ch seg Hch _ IH]; [reflexivity|].
  cbn [segments]. rewrite IH.
  destruct (Z.eqb_spec ch 46) as [->|_]; [discriminate Hch | reflexivity].
Qed.

Lemma segments_cut (seg rest : bytes) :
  urlSegment seg -> segments (seg ++ [46] ++ rest) = seg :: segments rest.
Proof.
  induction 1 as [|ch seg Hch _ IH]; [reflexivity|].
  cbn [segments app] in *. rewrite IH.
  destruct (Z.eqb_spec ch 46) as [->|_]; [discriminate Hch | reflexivity].
Qed.

Lemma prefix_wellFormed (c : Claims) (alg : string) (headerJSON : option bytes) :
  wellFormed 2 (unsignedPrefix c alg headerJSON).
Proof.
  unfold wellFormed, unsignedPrefix.
  rewrite segments_cut, segments_last by apply encode_url.
  split; [reflexivity|]. repeat constructor; apply encode_url.
Qed.

Lemma finished_wellFormed (c : Claims) (alg : string)
    (headerJSON : option bytes) (sig : bytes) (t : slice) :
  finished (unsignedPrefix c alg headerJSON) sig = Return (Some t) None ->
  wellFormed 3 (contents t) /\ moves t = 0%nat /\ len t = cap t.
Proof.
  unfold finished. intros [= <-].
  unfold contents, cap. cbn [arr len moves]. rewrite take_ge by lia.
  split; [|split; reflexivity].
  unfold wellFormed, signedToken, unsignedPrefix.
  rewrite <- !app_assoc.
  rewrite !segments_cut, segments_last by apply encode_url.
  split; [reflexivity|]. repeat constructor; apply encode_url.
Qed.

(** ** One array per call *)

Lemma setIndex_moves (t t' : slice) (i : nat) (v : Z) :
  setIndex t i v = Some t' -> moves t' = moves t.
Proof. unfold setIndex. case_decide; intros [= <-]; reflexivity. Qed.

Lemma encodeInto_moves (t t' : slice) (from : nat) (src : bytes) :
  encodeInto t from src = Some t' -> moves t' = moves t.
Proof.
  unfold encodeInto. case_decide; [|discriminate].
  destruct (EncodeTo _ _ _ _); intros [= <-]; reflexivity.
Qed.

Lemma delimited_moves (t t' : slice) (i : nat) (sig : bytes) :
  setIndex (full t) i 46 ≫= (fun t1 => encodeInto t1 (i + 1) sig) = Some t' ->
  moves t' = moves t.
Proof.
  destruct (setIndex (full t) i 46) as [t1|] eqn:H1; [|discriminate].
  cbn [mbind option_bind]. intros H2.
  apply setIndex_moves in H1. apply encodeInto_moves in H2.
  rewrite H2, H1. reflexivity.
Qed.

Lemma sumIntoSpare_moves (t : slice) (digest : bytes) :
  moves (sumIntoSpare t digest) = moves t.
Proof. unfold sumIntoSpare. case_decide; reflexivity. Qed.

Lemma FormatWithoutSign_moves (c : Claims) (alg : string) (t : slice)
    (e : option error) :
  FormatWithoutSign c alg = Return (Some t) e -> moves t = 0%nat.
Proof.
  unfold FormatWithoutSign. destruct (sync c alg) as [[c' hj]|]; [|discriminate].
  rewrite newToken_spec. intros [= <- _]. reflexivity.
Qed.

Lemma EdDSASign_moves (c : Claims) (key : bytes) (t : slice)
    (e : option error) :
  EdDSASign c key = Return (Some t) e -> moves t = 0%nat.
Proof.
  unfold EdDSASign. destruct (sync c EdDSA) as [[c' hj]|]; [|discriminate].
  rewrite newToken_spec. case_decide as Hkey; [|discriminate].
  match goal with
  | |- context [setIndex (full ?tok) ?i 46 ≫= ?f] =>
      destruct (setIndex (full tok) i 46 ≫= f) as [t'|] eqn:H; [|discriminate];
      apply delimited_moves in H
  end.
  intros [= <- _]. exact H.
Qed.

Lemma RSASign_moves (c : Claims) (alg : string) (key : rsa_PrivateKey)
    (t : slice) (e : option error) :
  RSASign c alg key = Return (Some t) e -> moves t = 0%nat.
Proof.
  unfold RSASign. destruct (sync c alg) as [[c' hj]|]; [|discriminate].
  destruct (hashLookup alg RSAAlgs) as [hash|]; [|discriminate].
  rewrite newToken_spec.
  destruct (if startsWithP alg then _ else _) as [sig|]; [|discriminate].
  match goal with
  | |- context [setIndex (full ?tok) ?i 46 ≫= ?f] =>
      destruct (setIndex (full tok) i 46 ≫= f) as [t'|] eqn:H; [|discriminate];
      apply delimited_moves in H
  end.
  intros [= <- _]. rewrite H. apply sumIntoSpare_moves.
Qed.

Lemma HMACSign_moves (c : Claims) (alg : string) (secret : bytes)
    (t : slice) (e : option error) :
  HMACSign c alg secret = Return (Some t) e -> moves t = 0%nat.
Proof.
  unfold HMACSign. case_decide; [discriminate|].
  destruct (sync c alg) as [[c' hj]|]; [|discriminate].
  destruct (hashLookup alg HMACAlgs) as [hash|]; [|discriminate].
  rewrite newToken_spec, append_spare.
  cbv zeta. case_decide; [|discriminate].
  destruct (sumAndEncode _ _ _) as [mem|]; [|discriminate].
  intros [= <- _]. reflexivity.
Qed.

Lemma ECDSASign_moves (c : Claims) (alg : string) (key : ecdsa_PrivateKey)
    (t : slice) (e : option error) :
  ECDSASign c alg key = Return (Some t) e -> moves t = 0%nat.
Proof.
  unfold ECDSASign. destruct (sync c alg) as [[c' hj]|]; [|discriminate].
  destruct (hashLookup alg ECDSAAlgs) as [hash|]; [|discriminate].
  rewrite newToken_spec, append_spare.
  destruct (ecdsa_Sign _ _) as [[r s]|]; [|discriminate].
  destruct (packSignature _ _ _ _ _) as [mem|]; [|discriminate].
  case_decide; [|discriminate].
  destruct (EncodeInPlace _ _ _ _) as [mem'|]; [|discriminate].
  intros [= <- _]. reflexivity.
Qed.

(** ** The header *)

Lemma buildHeaderJSON_fixed (c : Claims) (alg : string) :
  KeyID c = EmptyString -> In alg fixedAlgs ->
  buildHeaderJSON c alg = lit_alg ++ [34] ++ bytesOf alg ++ [34; 125].
Proof.
  intros Hk H. unfold buildHeaderJSON. rewrite Hk. simpl in H.
  repeat (destruct H as [<-|H]; [ vm_compute; reflexivity | ]).
  contradiction.
Qed.

Lemma newTokenSlow_prefix (c : Claims) (alg : string) (encSigLen : nat)
    (headerJSON : option bytes) :
  newTokenSlow c encSigLen (headerOf c alg headerJSON)
  = newToken c alg encSigLen headerJSON.
Proof.
  rewrite newToken_spec, newTokenSlow_spec. unfold unsignedPrefix.
  rewrite <- !app_assoc. do 2 f_equal.
  rewrite !length_app, !encode_length. simpl. lia.
Qed.

Lemma fixed_path_taken (c : Claims) (alg : string) (encSigLen : nat) :
  KeyID c = EmptyString -> In alg fixedAlgs ->
  newToken c alg encSigLen None = newTokenFixed c encSigLen (fixedHeader alg).
Proof.
  intros Hk H. apply In_fixedAlgs_fixedHeader in H.
  unfold newToken. rewrite Hk. cbn [String.eqb].
  destruct (String.eqb_spec (fixedHeader alg) EmptyString); [contradiction|].
  reflexivity.
Qed.

(** C2. For each of the thirteen identifiers of the switch and an empty key
    id, the slow path would build the JSON with the single key alg and no
    whitespace, the precomputed literal is the base64url encoding of that
    JSON followed by the delimiter, the fast path is the one taken, and the
    buffer it returns is the buffer the slow path would return. *)
Theorem fixed_header_table_matches_slow_path (raw : bytes) (encSigLen : nat) :
  Forall (fun alg =>
    let c := mkClaims raw EmptyString in
    buildHeaderJSON c alg = lit_alg ++ [34] ++ bytesOf alg ++ [34; 125]
    /\ bytesOf (fixedHeader alg) = encode (buildHeaderJSON c alg) ++ [46]
    /\ newToken c alg encSigLen None
       = newTokenFixed c encSigLen (fixedHeader alg)
    /\ newTokenFixed c encSigLen (fixedHeader alg)
       = newTokenSlow c encSigLen (buildHeaderJSON c alg))
  fixedAlgs.
Proof.
  apply Forall_forall. intros alg Hin.
  apply list_elem_of_In in Hin.
  set (c := mkClaims raw EmptyString).
  assert (Hk : KeyID c = EmptyString) by reflexivity.
  split; [apply buildHeaderJSON_fixed; assumption|].
  split.
  { destruct (fixedHeader_cases c alg Hk) as [He|[_ Hf]]; [|exact Hf].
    apply In_fixedAlgs_fixedHeader in Hin. contradiction. }
  split; [apply fixed_path_taken; assumption|].
  rewrite <- (fixed_path_taken c alg encSigLen Hk Hin).
  symmetry. apply (newTokenSlow_prefix c alg encSigLen None).
Qed.

(** C3. [newToken] returns a buffer of logical length
    [len(encodedHeader) + 1 + EncodedLen(len(payload))] and of capacity that
    length plus [1 + encSigLen], holding the encoded header, the delimiter
    and the encoded payload; the [append] of the delimiter stays in the
    array, and the token any of the five entry points returns still lives
    in the array [make] allocated. *)
Theorem newToken_buffer_single_allocation (c : Claims) (alg : string)
    (encSigLen : nat) (headerJSON : option bytes) :
  (exists token,
      newToken c alg encSigLen headerJSON = Some token
      /\ len token
         = (length (encode (headerOf c alg headerJSON)) + 1
            + EncodedLen (length (Raw c)))%nat
      /\ cap token = (len token + 1 + encSigLen)%nat
      /\ contents token
         = encode (headerOf c alg headerJSON) ++ [46] ++ encode (Raw c)
      /\ moves token = 0%nat
      /\ moves (append token 46) = 0%nat)
  /\ (forall (secret edKey : bytes) (ecKey : ecdsa_PrivateKey)
        (rsaKey : rsa_PrivateKey) (t : slice) (e : option error),
        FormatWithoutSign c alg = Return (Some t) e
        \/ HMACSign c alg secret = Return (Some t) e
        \/ RSASign c alg rsaKey = Return (Some t) e
        \/ ECDSASign c alg ecKey = Return (Some t) e
        \/ EdDSASign c edKey = Return (Some t) e ->
        moves t = 0%nat).
Proof.
  split.
  - eexists. split; [apply newToken_spec|].
    rewrite append_spare. unfold contents, cap. cbn [len arr moves].
    rewrite take_app_length. unfold unsignedPrefix.
    rewrite !length_app, length_replicate, (encode_length (Raw c)).
    cbn [length].
    repeat split; try reflexivity; lia.
  - intros secret edKey ecKey rsaKey t e [H|[H|[H|[H|H]]]].
    + eapply FormatWithoutSign_moves, H.
    + eapply HMACSign_moves, H.
    + eapply RSASign_moves, H.
    + eapply ECDSASign_moves, H.
    + eapply EdDSASign_moves, H.
Qed.

(** C5 (at the failing input). With the key id made of the single control
    character BEL and HS256, the slow path writes the kid value as a
    backslash followed by the letter a between quotes: the field order is
    the one claimed, but that value is not a JSON string, so it does not
    read back as the key id. *)
Theorem kid_control_character_not_json :
  let c := mkClaims [] (String "007"%char EmptyString) in
  buildHeaderJSON c HS256
    = lit_kid ++ [34; 92; 97; 34] ++ lit_comma_alg
        ++ [34] ++ bytesOf HS256 ++ [34; 125]
  /\ AppendQuote [] (KeyID c) = [34; 92; 97; 34]
  /\ json.unquote (AppendQuote [] (KeyID c)) = None.
Proof. repeat split. Qed.

(** C6. With a secret of length zero [HMACSign] returns no token and
    [errNoSecret]: for every algorithm identifier, in the family or not, and
    whatever [sync] does with the claims, since neither is looked at before
    the secret. *)
Theorem HMACSign_empty_secret (c : Claims) (alg : string) (secret : bytes) :
  length secret = 0%nat ->
  HMACSign c alg secret = Return None (Some errNoSecret).
Proof.
  intros Hlen. unfold HMACSign.
  rewrite decide_True by exact Hlen. reflexivity.
Qed.

(** ** Tokens *)

Lemma HMACSign_success (c : Claims) (alg : string) (secret : bytes) (t : slice) :
  primitivesSized ->
  HMACSign c alg secret = Return (Some t) None ->
  exists c' headerJSON sig,
    finished (unsignedPrefix c' alg headerJSON) sig = Return (Some t) None.
Proof.
  intros (Hmac & _) H.
  destruct (decide (length secret = 0%nat)) as [Hz|Hnz].
  { unfold HMACSign in H. rewrite decide_True in H by exact Hz. discriminate. }
  destruct (sync c alg) as [[c' hj]|err] eqn:Hsync.
  2: { unfold HMACSign in H. rewrite decide_False, Hsync in H by exact Hnz.
       discriminate. }
  destruct (hashLookup alg HMACAlgs) as [hash|err] eqn:Hlook.
  2: { unfold HMACSign in H.
       rewrite decide_False, Hsync, Hlook in H by exact Hnz. discriminate. }
  rewrite (HMACSign_spec c c' alg secret hj hash Hnz Hsync Hlook (Hmac _ _ _))
    in H.
  eauto.
Qed.

Lemma RSASign_success (c : Claims) (alg : string) (key : rsa_PrivateKey)
    (t : slice) :
  primitivesSized ->
  RSASign c alg key = Return (Some t) None ->
  exists c' headerJSON sig,
    finished (unsignedPrefix c' alg headerJSON) sig = Return (Some t) None.
Proof.
  intros (_ & Hpss & Hpkcs & _) H.
  destruct (sync c alg) as [[c' hj]|err] eqn:Hsync.
  2: { unfold RSASign in H. rewrite Hsync in H. discriminate. }
  destruct (hashLookup alg RSAAlgs) as [hash|err] eqn:Hlook.
  2: { unfold RSASign in H. rewrite Hsync, Hlook in H. discriminate. }
  rewrite (RSASign_spec c c' alg key hj hash Hsync Hlook) in H.
  - unfold rsaOutcome in H.
    destruct (if startsWithP alg then _ else _) as [sig|err]; [|discriminate].
    eauto.
  - intros sig. destruct (startsWithP alg); [apply Hpss | apply Hpkcs].
Qed.

Lemma ECDSASign_success (c : Claims) (alg : string) (key : ecdsa_PrivateKey)
    (t : slice) :
  ECDSASign c alg key = Return (Some t) None ->
  exists c' headerJSON sig,
    finished (unsignedPrefix c' alg headerJSON) sig = Return (Some t) None.
Proof.
  intros H.
  destruct (sync c alg) as [[c' hj]|err] eqn:Hsync.
  2: { unfold ECDSASign in H. rewrite Hsync in H. discriminate. }
  destruct (hashLookup alg ECDSAAlgs) as [hash|err] eqn:Hlook.
  2: { unfold ECDSASign in H. rewrite Hsync, Hlook in H. discriminate. }
  destruct (ecdsa_Sign key (hashSum hash (unsignedPrefix c' alg hj)))
    as [[r s]|err] eqn:Hsign.
  2: { unfold ECDSASign in H.
       rewrite Hsync, Hlook, newToken_spec, contents_prefix, Hsign in H.
       discriminate. }
  destruct (ECDSASign_outcome c c' alg key hj hash r s Hsync Hlook Hsign)
    as [Hp|(raw & _ & Hf)].
  - rewrite Hp in H. discriminate.
  - rewrite Hf in H. eauto.
Qed.

Lemma EdDSASign_success (c : Claims) (key : bytes) (t : slice) :
  primitivesSized ->
  EdDSASign c key = Return (Some t) None ->
  exists c' headerJSON sig,
    finished (unsignedPrefix c' EdDSA headerJSON) sig = Return (Some t) None.
Proof.
  intros (_ & _ & _ & Hed) H.
  destruct (sync c EdDSA) as [[c' hj]|err] eqn:Hsync.
  2: { unfold EdDSASign in H. rewrite Hsync in H. discriminate. }
  destruct (decide (length key = ed25519_PrivateKeySize)) as [Hkey|Hkey].
  2: { unfold EdDSASign in H.
       rewrite Hsync, newToken_spec, decide_False in H by exact Hkey.
       discriminate. }
  rewrite (EdDSASign_spec c c' key hj Hsync Hkey (Hed _ _)) in H. eauto.
Qed.

(** The two word sizes of Go: four or eight rounds of the inner loop. *)
Lemma IntSize_rounds :
  IntSize = 32 \/ IntSize = 64 ->
  IntSize = 8 * Z.of_nat wordRounds
  /\ (wordRounds = 4 \/ wordRounds = 8)%nat.
Proof.
  unfold wordRounds. intros [-> | ->].
  - split; [reflexivity | left; reflexivity].
  - split; [reflexivity | right; reflexivity].
Qed.

(** A return without an error carries a token: no entry point returns
    [nil, nil]. *)
Lemma nil_error_carries_token (c : Claims) (alg : string)
    (secret edKey : bytes) (ecKey : ecdsa_PrivateKey) (rsaKey : rsa_PrivateKey)
    (tok : option slice) :
  FormatWithoutSign c alg = Return tok None
  \/ HMACSign c alg secret = Return tok None
  \/ RSASign c alg rsaKey = Return tok None
  \/ ECDSASign c alg ecKey = Return tok None
  \/ EdDSASign c edKey = Return tok None ->
  exists t, tok = Some t.
Proof.
  unfold FormatWithoutSign, HMACSign, RSASign, ECDSASign, EdDSASign.
  intros [H|[H|[H|[H|H]]]];
    repeat case_match; simplify_eq; eexists; reflexivity.
Qed.

(** C7. Every return without an error of [HMACSign], [RSASign], [ECDSASign]
    or [EdDSASign] carries a token, and that token has exactly three
    segments, each of base64url characters only; a return without an error
    of [FormatWithoutSign] carries what [newToken] builds with
    [encSigLen = 0], whose contents are the encoded header, the delimiter and
    the encoded payload: two segments and nothing after them.  These returns
    are reached: once [sync] has succeeded, [FormatWithoutSign] returns a
    token, and so does each signing function when its identifier is of its
    family and its primitive has signed (for [ECDSASign], r and s of at most
    [paramLen] bytes on a curve whose tail is long enough for the two passes,
    which it is from [paramLen = 10] on; for [EdDSASign], a key of
    [ed25519.PrivateKeySize] bytes). *)
Theorem returned_tokens_well_formed (c : Claims) (alg : string)
    (secret edKey : bytes) (ecKey : ecdsa_PrivateKey) (rsaKey : rsa_PrivateKey) :
  primitivesSized ->
  (forall tok,
     HMACSign c alg secret = Return tok None
     \/ RSASign c alg rsaKey = Return tok None
     \/ ECDSASign c alg ecKey = Return tok None
     \/ EdDSASign c edKey = Return tok None ->
     exists t, tok = Some t /\ wellFormed 3 (contents t) /\ len t = cap t)
  /\ (forall tok, FormatWithoutSign c alg = Return tok None ->
      exists t c' headerJSON,
        tok = Some t
        /\ sync c alg = inl (c', headerJSON)
        /\ newToken c' alg 0 headerJSON = Some t
        /\ contents t
           = encode (headerOf c' alg headerJSON) ++ [46] ++ encode (Raw c')
        /\ wellFormed 2 (contents t))
  /\ (forall c' headerJSON, sync c alg = inl (c', headerJSON) ->
      let prefix := unsignedPrefix c' alg headerJSON in
      (exists t, FormatWithoutSign c alg = Return (Some t) None)
      /\ (forall hash,
            length secret <> 0%nat -> hashLookup alg HMACAlgs = inl hash ->
            exists t, HMACSign c alg secret = Return (Some t) None)
      /\ (forall hash sig,
            hashLookup alg RSAAlgs = inl hash ->
            (if startsWithP alg
             then rsa_SignPSS rsaKey hash (hashSum hash prefix)
             else rsa_SignPKCS1v15 rsaKey hash (hashSum hash prefix))
            = inl sig ->
            exists t, RSASign c alg rsaKey = Return (Some t) None)
      /\ (forall hash r s,
            hashLookup alg ECDSAAlgs = inl hash ->
            ecdsa_Sign ecKey (hashSum hash prefix) = inl (r, s) ->
            IntSize = 32 \/ IntSize = 64 ->
            let paramLen := ((BitSize ecKey + 7) / 8)%nat in
            (paramLen + wordSpan paramLen <= EncodedLen (2 * paramLen))%nat ->
            Z.abs r < 2 ^ (8 * Z.of_nat paramLen) ->
            Z.abs s < 2 ^ (8 * Z.of_nat paramLen) ->
            exists t, ECDSASign c alg ecKey = Return (Some t) None))
  /\ (forall c' headerJSON, sync c EdDSA = inl (c', headerJSON) ->
      length edKey = ed25519_PrivateKeySize ->
      exists t, EdDSASign c edKey = Return (Some t) None).
Proof.
  intros Hsized. split; [|split; [|split]].
  - intros tok H.
    destruct (nil_error_carries_token c alg secret edKey ecKey rsaKey tok
                ltac:(right; exact H)) as [t ->].
    exists t. split; [reflexivity|].
    assert (exists a c' hj sig,
              finished (unsignedPrefix c' a hj) sig = Return (Some t) None)
      as (a & c' & hj & sig & Hf).
    { destruct H as [H|[H|[H|H]]].
      - exists alg. eapply HMACSign_success; eassumption.
      - exists alg. eapply RSASign_success; eassumption.
      - exists alg. eapply ECDSASign_success; eassumption.
      - exists EdDSA. eapply EdDSASign_success; eassumption. }
    apply finished_wellFormed in Hf as (Hw & _ & Hl). split; assumption.
  - intros tok. unfold FormatWithoutSign.
    destruct (sync c alg) as [[c' hj]|err]; [|discriminate].
    destruct (newToken c' alg 0 hj) as [t'|] eqn:Hnew; [|discriminate].
    intros [= <-]. exists t', c', hj.
    split; [reflexivity|]. split; [reflexivity|]. split; [exact Hnew|].
    rewrite newToken_spec in Hnew. injection Hnew as <-.
    rewrite contents_prefix.
    split; [reflexivity | apply prefix_wellFormed].
  - intros c' hj Hsync prefix.
    pose proof Hsized as (Hmac & Hpss & Hpkcs & _).
    split; [|split; [|split]].
    + unfold FormatWithoutSign. rewrite Hsync, newToken_spec.
      eexists. reflexivity.
    + intros hash Hnz Hlook.
      rewrite (HMACSign_spec c c' alg secret hj hash Hnz Hsync Hlook
                 (Hmac _ _ _)).
      eexists. reflexivity.
    + intros hash sig Hlook Hsig.
      rewrite (RSASign_spec c c' alg rsaKey hj hash Hsync Hlook)
        by (intros sig'; destruct (startsWithP alg);
            [apply Hpss | apply Hpkcs]).
      fold prefix. rewrite Hsig. eexists. reflexivity.
    + intros hash r s Hlook Hsign HW paramLen Hspace Hr Hs.
      apply IntSize_rounds in HW as [HW HK].
      rewrite (ECDSASign_spec c c' alg ecKey hj hash r s Hsync Hlook Hsign HW
                 ltac:(lia) Hspace Hr Hs).
      eexists. reflexivity.
  - intros c' hj Hsync Hkey.
    pose proof Hsized as (_ & _ & _ & Hed).
    rewrite (EdDSASign_spec c c' edKey hj Hsync Hkey (Hed _ _)).
    eexists. reflexivity.
Qed.

(** C8. In [RSASign], for an identifier of the RSA family, the padding is
    PSS exactly when the identifier starts with the letter P, which are the
    three PS identifiers, and PKCS#1 v1.5 otherwise; [newToken] reserves
    [EncodedLen(key.Size())] bytes for the signature, and a signature of
    [key.Size()] bytes fills them exactly. *)
Theorem RSASign_dispatch (c c' : Claims) (alg : string) (key : rsa_PrivateKey)
    (headerJSON : option bytes) (hash : Hash) :
  sync c alg = inl (c', headerJSON) ->
  hashLookup alg RSAAlgs = inl hash ->
  primitivesSized ->
  let prefix := unsignedPrefix c' alg headerJSON in
  let digest := hashSum hash prefix in
  (startsWithP alg = true <-> In alg [PS256; PS384; PS512])
  /\ (startsWithP alg = true ->
      RSASign c alg key = rsaOutcome prefix (rsa_SignPSS key hash digest))
  /\ (startsWithP alg = false ->
      RSASign c alg key = rsaOutcome prefix (rsa_SignPKCS1v15 key hash digest))
  /\ (exists token,
        newToken c' alg (EncodedLen (rsaSize key)) headerJSON = Some token
        /\ cap token = (len token + 1 + EncodedLen (rsaSize key))%nat)
  /\ (forall t, RSASign c alg key = Return (Some t) None ->
        len t = cap t
        /\ cap t = (length prefix + 1 + EncodedLen (rsaSize key))%nat).
Proof.
  intros Hsync Hlook Hsized prefix digest.
  pose proof Hsized as (_ & Hpss & Hpkcs & _).
  assert (Hspec : RSASign c alg key
                  = rsaOutcome prefix
                      (if startsWithP alg then rsa_SignPSS key hash digest
                       else rsa_SignPKCS1v15 key hash digest)).
  { apply RSASign_spec; try assumption.
    intros sig. destruct (startsWithP alg); [apply Hpss | apply Hpkcs]. }
  split; [|split; [|split; [|split]]].
  - unfold RSAAlgs in Hlook. cbn [hashLookup] in Hlook.
    repeat match type of Hlook with
           | context [String.eqb alg ?name] =>
               destruct (String.eqb_spec alg name) as [->|?];
               [ vm_compute; intuition discriminate | ]
           end.
    discriminate.
  - intros HP. rewrite Hspec, HP. reflexivity.
  - intros HP. rewrite Hspec, HP. reflexivity.
  - eexists. split; [apply newToken_spec|].
    unfold cap. cbn [len arr]. rewrite length_app, length_replicate. lia.
  - intros t Ht. rewrite Hspec in Ht. unfold rsaOutcome in Ht.
    destruct (if startsWithP alg then _ else _) as [sig|err] eqn:Hsig;
      [|discriminate].
    assert (Hlen : length sig = rsaSize key).
    { destruct (startsWithP alg); [eapply Hpss | eapply Hpkcs]; exact Hsig. }
    unfold finished in Ht. injection Ht as <-.
    unfold cap, signedToken. cbn [len arr].
    rewrite !length_app, encode_length, Hlen. cbn [length].
    split; [reflexivity | lia].
Qed.

(** C9. Whenever one of the five entry points returns an error, the token
    it returns with it is [nil]. *)
Theorem error_returns_no_token (c : Claims) (alg : string)
    (secret edKey : bytes) (ecKey : ecdsa_PrivateKey) (rsaKey : rsa_PrivateKey)
    (token : option slice) (err : error) :
  FormatWithoutSign c alg = Return token (Some err)
  \/ HMACSign c alg secret = Return token (Some err)
  \/ RSASign c alg rsaKey = Return token (Some err)
  \/ ECDSASign c alg ecKey = Return token (Some err)
  \/ EdDSASign c edKey = Return token (Some err) ->
  token = None.
Proof.
  unfold FormatWithoutSign, HMACSign, RSASign, ECDSASign, EdDSASign.
  intros [H|[H|[H|[H|H]]]];
    repeat case_match; simplify_eq; reflexivity.
Qed.

(** ** The raw ECDSA signature *)

Lemma wordSpan_le (p : nat) :
  (0 < wordRounds)%nat -> (wordSpan p <= p + wordRounds - 1)%nat.
Proof.
  intros HK. unfold wordSpan.
  pose proof (Nat.div_mod_eq (p + wordRounds - 1) wordRounds). lia.
Qed.

(** From ten bytes on, whatever the word size, the tail that [newToken]
    reserved is long enough for both passes. *)
Lemma wordSpan_fits (p : nat) :
  IntSize = 32 \/ IntSize = 64 -> (10 <= p)%nat ->
  (p + wordSpan p <= EncodedLen (2 * p))%nat.
Proof.
  intros HW Hp. apply IntSize_rounds in HW as [_ HK].
  pose proof (wordSpan_le p ltac:(lia)) as Hle.
  pose proof (EncodedLen_split (2 * p)) as Hsplit.
  pose proof (Nat.div_mod_eq (2 * p) 3) as Hdm.
  destruct (EncodedLen_rem (2 * p)) as [[? ?]|[[? ?]|[? ?]]]; lia.
Qed.

Lemma wordSpan_fits_curves (p : nat) :
  IntSize = 32 \/ IntSize = 64 ->
  (p = 32 \/ p = 48 \/ p = 66)%nat ->
  (p + wordSpan p <= EncodedLen (2 * p))%nat.
Proof. intros HW Hp. apply wordSpan_fits; [exact HW | lia]. Qed.

Lemma bigEndian_length (n : nat) (x : Z) : length (bigEndian n x) = n.
Proof.
  rewrite bigEndian_byteAt, length_rev, length_map, length_seq. reflexivity.
Qed.

(** C1 (amended). When the tail reserved by [newToken] is long enough for
    the two passes, which it is from [paramLen = 10] on, and r and s are
    below [2^(8*paramLen)] in magnitude, the loops leave in the last
    [2*paramLen] bytes of the zeroed tail the [paramLen] big-endian bytes of
    r, zero-filled on the left, followed by those of s: what the
    byte-oriented definition gives. *)
Theorem packSignature_fixed_width (pre : bytes) (paramLen : nat) (r s : Z) :
  IntSize = 32 \/ IntSize = 64 ->
  (paramLen + wordSpan paramLen <= EncodedLen (2 * paramLen))%nat ->
  Z.abs r < 2 ^ (8 * Z.of_nat paramLen) ->
  Z.abs s < 2 ^ (8 * Z.of_nat paramLen) ->
  exists mem,
    packSignature (pre ++ replicate (EncodedLen (2 * paramLen)) 0)
      (length pre) paramLen r s = Some mem
    /\ drop (length mem - 2 * paramLen) mem
       = bigEndian paramLen r ++ bigEndian paramLen s
    /\ length (bigEndian paramLen r) = paramLen
    /\ length (bigEndian paramLen s) = paramLen
    /\ take (length pre) mem = pre.
Proof.
  intros HW Hspace Hr Hs.
  apply IntSize_rounds in HW as [HW HK].
  eexists. split.
  { apply packSignature_spec; [exact HW | lia | exact Hspace | exact Hr | exact Hs]. }
  rewrite !bigEndian_length.
  split; [|split; [reflexivity|split; [reflexivity|]]].
  - apply drop_app_length'.
    rewrite !length_app, !bigEndian_length. lia.
  - rewrite <- app_assoc. apply take_app_length.
Qed.

(** The logged loops are the loops: the same array and cursor, and the log
    holds exactly the indices between the last cursor and the first. *)
Lemma putWordLog_trace (k : nat) : forall (mem mem' : bytes) (base : nat)
    (n i i' word : Z) (log : list Z),
  putWordLog k mem base n i word = Some (mem', i', log) ->
  putWord k mem base n i word = Some (mem', i')
  /\ i' <= i /\ forall x, In x log <-> i' <= x < i.
Proof.
  induction k as [|k IH]; intros mem mem' base n i i' word log H.
  - cbn [putWordLog] in H. injection H as <- <- <-.
    split; [reflexivity|]. split; [lia|].
    intros x. cbn [In]. lia.
  - cbn [putWordLog] in H.
    destruct (sigStore mem base n (i - 1) (word mod 256)) as [m1|] eqn:Hs;
      [|discriminate].
    cbn [mbind option_bind] in H.
    destruct (putWordLog k m1 base n (i - 1) (Z.shiftr word 8))
      as [[[m2 j] l]|] eqn:Hr; [|discriminate].
    cbn [mbind option_bind] in H. injection H as <- <- <-.
    apply IH in Hr as (Hp & Hle & Hin).
    cbn [putWord]. rewrite Hs. cbn [mbind option_bind].
    split; [exact Hp|]. split; [lia|].
    intros x. cbn [In]. rewrite Hin. lia.
Qed.

Lemma putWordLog_total (k : nat) : forall (mem mem' : bytes) (base : nat)
    (n i i' word : Z),
  putWord k mem base n i word = Some (mem', i') ->
  exists log, putWordLog k mem base n i word = Some (mem', i', log).
Proof.
  induction k as [|k IH]; intros mem mem' base n i i' word H.
  - cbn [putWord] in H. injection H as <- <-. exists []. reflexivity.
  - cbn [putWord] in H. cbn [putWordLog].
    destruct (sigStore mem base n (i - 1) (word mod 256)) as [m1|];
      [|discriminate].
    cbn [mbind option_bind] in *.
    apply IH in H as [log ->]. eexists. reflexivity.
Qed.

Lemma putWordsLog_trace (words : list Z) : forall (mem mem' : bytes)
    (base : nat) (n i i' : Z) (log : list Z),
  putWordsLog words mem base n i = Some (mem', i', log) ->
  putWords words mem base n i = Some (mem', i')
  /\ i' <= i /\ forall x, In x log <-> i' <= x < i.
Proof.
  induction words as [|w rest IH]; intros mem mem' base n i i' log H.
  - cbn [putWordsLog] in H. injection H as <- <- <-.
    split; [reflexivity|]. split; [lia|].
    intros x. cbn [In]. lia.
  - cbn [putWordsLog] in H.
    destruct (putWordLog wordRounds mem base n i w) as [[[m1 i1] l1]|] eqn:H1;
      [|discriminate].
    cbn [mbind option_bind] in H.
    destruct (putWordsLog rest m1 base n i1) as [[[m2 i2] l2]|] eqn:H2;
      [|discriminate].
    cbn [mbind option_bind] in H. injection H as <- <- <-.
    apply putWordLog_trace in H1 as (Hp1 & Hle1 & Hin1).
    apply IH in H2 as (Hp2 & Hle2 & Hin2).
    cbn [putWords]. rewrite Hp1. cbn [mbind option_bind].
    split; [exact Hp2|]. split; [lia|].
    intros x. rewrite in_app_iff, Hin1, Hin2. lia.
Qed.

Lemma putWordsLog_total (words : list Z) : forall (mem mem' : bytes)
    (base : nat) (n i i' : Z),
  putWords words mem base n i = Some (mem', i') ->
  exists log, putWordsLog words mem base n i = Some (mem', i', log).
Proof.
  induction words as [|w rest IH]; intros mem mem' base n i i' H.
  - cbn [putWords] in H. injection H as <- <-. exists []. reflexivity.
  - cbn [putWords] in H. cbn [putWordsLog].
    destruct (putWord wordRounds mem base n i w) as [[m1 i1]|] eqn:H1;
      [|discriminate].
    cbn [mbind option_bind] in H.
    apply putWordLog_total in H1 as [l1 ->]. cbn [mbind option_bind].
    apply IH in H as [l2 ->]. eexists. reflexivity.
Qed.

(** What a pass stores beyond the [p] bytes of a value below [2^(8*p)]:
    zero bytes, those of the upper end of the last word. *)
Lemma putWords_overshoot (mem : bytes) (base n i p : nat) (x : Z) :
  IntSize = 8 * Z.of_nat wordRounds -> (0 < wordRounds)%nat ->
  (wordRounds * big.nwords IntSize x <= i)%nat -> (i <= n)%nat ->
  (base + n <= length mem)%nat ->
  Z.abs x < 2 ^ (8 * Z.of_nat p) ->
  exists mem',
    putWords (big.Bits IntSize x) mem base (Z.of_nat n) (Z.of_nat i)
    = Some (mem', Z.of_nat (i - wordRounds * big.nwords IntSize x))
    /\ forall k : nat,
         (i - wordRounds * big.nwords IntSize x <= k)%nat -> (k + p < i)%nat ->
         mem' !! (base + k)%nat = Some 0.
Proof.
  intros HW HK Hfit Hi Hn Hx.
  rewrite putWords_spec by (rewrite ?Bits_length; lia).
  rewrite Bits_length. eexists. split; [reflexivity|].
  intros k Hk1 Hk2.
  rewrite HW at 2. rewrite packed_words_bigEndian. rewrite <- HW.
  set (w := (wordRounds * big.nwords IntSize x)%nat) in *.
  replace w with ((w - p) + p)%nat at 2 by lia.
  rewrite (bigEndian_pad x p (w - p) Hx).
  rewrite lookup_app_r by (rewrite length_take; lia).
  rewrite length_take, Nat.min_l by lia.
  rewrite <- app_assoc, lookup_app_l by (rewrite length_replicate; lia).
  apply lookup_replicate_2. lia.
Qed.

(** C10 (amended). For the three supported curves and both word sizes, with
    r and s below [2^(8*paramLen)] in magnitude, no store of the two passes
    leaves the window [sig]: both passes run to their end, every index
    stored at is in [[0, len(sig))], the lowest index each pass reaches is at
    least zero, and the bytes of the array before the window are as they
    were.  A store of the s pass below the field of s lands in the field of
    r, inside the raw span, and stores a zero there, before the r pass
    runs; a store of the r pass is always below the field of s, and one below
    the raw span stores a zero in the scratch bytes. *)
Theorem ECDSA_indices_in_bounds (mem : bytes) (base paramLen : nat) (r s : Z) :
  IntSize = 32 \/ IntSize = 64 ->
  (paramLen = 32 \/ paramLen = 48 \/ paramLen = 66)%nat ->
  length mem = (base + EncodedLen (2 * paramLen))%nat ->
  Z.abs r < 2 ^ (8 * Z.of_nat paramLen) ->
  Z.abs s < 2 ^ (8 * Z.of_nat paramLen) ->
  let n := Z.of_nat (EncodedLen (2 * paramLen)) in
  let p := Z.of_nat paramLen in
  exists mem1 i1 log1 mem2 i2 log2,
    putWords (big.Bits IntSize s) mem base n n = Some (mem1, i1)
    /\ putWords (big.Bits IntSize r) mem1 base n (n - p) = Some (mem2, i2)
    /\ packSignature mem base paramLen r s = Some mem2
    /\ putWordsLog (big.Bits IntSize s) mem base n n = Some (mem1, i1, log1)
    /\ putWordsLog (big.Bits IntSize r) mem1 base n (n - p)
       = Some (mem2, i2, log2)
    /\ (forall k, In k (log1 ++ log2) -> 0 <= k < n)
    /\ (forall k, In k log1 -> k < n - p ->
          n - 2 * p <= k /\ mem1 !! (base + Z.to_nat k)%nat = Some 0)
    /\ (forall k, In k log2 ->
          k < n - p
          /\ (k < n - 2 * p -> mem2 !! (base + Z.to_nat k)%nat = Some 0))
    /\ 0 <= n - Z.of_nat (wordSpan paramLen) <= i1
    /\ 0 <= n - p - Z.of_nat (wordSpan paramLen) <= i2
    /\ length mem2 = length mem
    /\ take base mem2 = take base mem.
Proof.
  intros HW Hp Hmem Hr Hs n p.
  pose proof (wordSpan_fits_curves paramLen HW Hp) as Hspace.
  apply IntSize_rounds in HW as [HW HK].
  assert (HK0 : (0 < wordRounds)%nat) by lia.
  pose proof (wordSpan_ge paramLen HK0) as Hge.
  pose proof (wordSpan_le paramLen HK0) as Hle.
  pose proof (nwords_span wordRounds paramLen r HK0 Hr) as Hnr.
  pose proof (nwords_span wordRounds paramLen s HK0 Hs) as Hns.
  rewrite <- HW in Hnr, Hns. fold (wordSpan paramLen) in Hnr, Hns.
  set (e := EncodedLen (2 * paramLen)) in *.
  set (ws := (wordRounds * big.nwords IntSize s)%nat) in *.
  set (wr := (wordRounds * big.nwords IntSize r)%nat) in *.
  destruct (putWords_overshoot mem base e e paramLen s HW HK0
              ltac:(fold ws; lia) ltac:(lia) ltac:(lia) Hs)
    as (mem1 & H1 & Hz1).
  fold ws in H1, Hz1. fold n in H1.
  pose proof (putWords_frame _ _ _ _ _ _ _ H1) as [Hl1 Ht1].
  destruct (putWords_overshoot mem1 base e (e - paramLen) paramLen r HW HK0
              ltac:(fold wr; lia) ltac:(lia) ltac:(lia) Hr)
    as (mem2 & H2 & Hz2).
  fold wr in H2, Hz2. fold n in H2.
  replace (Z.of_nat (e - paramLen)) with (n - p) in H2 by (unfold n, p; lia).
  pose proof (putWords_frame _ _ _ _ _ _ _ H2) as [Hl2 Ht2].
  destruct (putWordsLog_total _ _ _ _ _ _ _ H1) as [log1 HL1].
  destruct (putWordsLog_total _ _ _ _ _ _ _ H2) as [log2 HL2].
  pose proof (putWordsLog_trace _ _ _ _ _ _ _ _ HL1) as (_ & _ & Hin1).
  pose proof (putWordsLog_trace _ _ _ _ _ _ _ _ HL2) as (_ & _ & Hin2).
  exists mem1, (Z.of_nat (e - ws)), log1, mem2,
         (Z.of_nat (e - paramLen - wr)), log2.
  split; [exact H1|]. split; [exact H2|].
  split.
  { unfold packSignature.
    replace (Z.of_nat (length mem - base)) with n by (unfold n; lia).
    rewrite H1. cbn [mbind option_bind]. fold p. rewrite H2. reflexivity. }
  split; [exact HL1|]. split; [exact HL2|].
  split.
  { intros k Hk. apply in_app_iff in Hk as [Hk|Hk].
    - apply Hin1 in Hk. unfold n. lia.
    - apply Hin2 in Hk. unfold n, p in *. lia. }
  split.
  { intros k Hk Hlow. apply Hin1 in Hk. unfold n, p in *.
    split; [lia|]. apply Hz1; lia. }
  split.
  { intros k Hk. apply Hin2 in Hk. unfold n, p in *.
    split; [lia|]. intros Hlow. apply Hz2; lia. }
  unfold n, p. repeat split; try lia; congruence.
Qed.

(** * Further properties of the engine *)

Lemma hashLookup_error (alg : string) (algs : list (string * Hash)) (e : error) :
  hashLookup alg algs = inr e -> e = AlgError alg.
Proof.
  induction algs as [|[name h] rest IH]; cbn [hashLookup].
  - intros [= <-]. reflexivity.
  - destruct (String.eqb alg name); [discriminate | exact IH].
Qed.

(** X1. [HMACSign] never panics and its outcome is decided in this order:
    an empty secret gives [errNoSecret]; else a failing [sync] gives its
    error; else an identifier outside [HMACAlgs] gives [AlgError] with that
    identifier; else the token is the unsigned prefix, the delimiter and
    the encoding of the MAC, the MAC being taken over exactly the unsigned
    prefix with the hash the identifier names. *)
Theorem HMACSign_decision (c : Claims) (alg : string) (secret : bytes) :
  (forall h k m, length (hmacSum h k m) = hashSize h) ->
  HMACSign c alg secret =
    if decide (length secret = 0%nat) then Return None (Some errNoSecret)
    else match sync c alg with
         | inr err => Return None (Some err)
         | inl (c', headerJSON) =>
             let prefix := unsignedPrefix c' alg headerJSON in
             match hashLookup alg HMACAlgs with
             | inr _ => Return None (Some (AlgError alg))
             | inl hash => finished prefix (hmacSum hash secret prefix)
             end
         end.
Proof.
  intros Hmac. destruct (decide (length secret = 0%nat)) as [Hz|Hnz].
  { unfold HMACSign. rewrite decide_True by exact Hz. reflexivity. }
  destruct (sync c alg) as [[c' hj]|err] eqn:Hsync.
  2: { unfold HMACSign. rewrite decide_False, Hsync by exact Hnz. reflexivity. }
  cbv zeta.
  destruct (hashLookup alg HMACAlgs) as [hash|err] eqn:Hlook.
  - apply HMACSign_spec; auto.
  - unfold HMACSign. rewrite decide_False, Hsync, Hlook by exact Hnz.
    rewrite (hashLookup_error _ _ _ Hlook). reflexivity.
Qed.

(** X2. [EdDSASign] returns an error only when [sync] fails, and then
    whatever the key; once [sync] has succeeded it panics exactly when the
    key does not have [ed25519.PrivateKeySize] bytes, the check that
    [ed25519.Sign] makes; with a key of that length the signature is taken
    over exactly the unsigned prefix, without a digest step, and the token is
    that prefix, the delimiter and the encoding of the signature. *)
Theorem EdDSASign_decision (c : Claims) (key : bytes) :
  (forall k msg, length (ed25519_Sign k msg) = ed25519_SignatureSize) ->
  EdDSASign c key =
    match sync c EdDSA with
    | inr err => Return None (Some err)
    | inl (c', headerJSON) =>
        if decide (length key = ed25519_PrivateKeySize) then
          let prefix := unsignedPrefix c' EdDSA headerJSON in
          finished prefix (ed25519_Sign key prefix)
        else Panic
    end.
Proof.
  intros Hed. destruct (sync c EdDSA) as [[c' hj]|err] eqn:Hsync.
  - case_decide as Hkey.
    + apply EdDSASign_spec; auto.
    + unfold EdDSASign.
      rewrite Hsync, newToken_spec, decide_False by exact Hkey. reflexivity.
  - unfold EdDSASign. rewrite Hsync. reflexivity.
Qed.

(** X3. [RSASign] never panics and its outcome is decided in this order: a
    failing [sync] gives its error; else an identifier outside [RSAAlgs]
    gives [AlgError] with that identifier, before the key is used; else the
    error of the padding primitive, or the token over its signature of the
    digest of the unsigned prefix.  The digest that [Sum] parks in the
    spare capacity leaves no trace in the token. *)
Theorem RSASign_decision (c : Claims) (alg : string) (key : rsa_PrivateKey) :
  (forall k h d sig, rsa_SignPSS k h d = inl sig -> length sig = rsaSize k) ->
  (forall k h d sig, rsa_SignPKCS1v15 k h d = inl sig -> length sig = rsaSize k) ->
  RSASign c alg key =
    match sync c alg with
    | inr err => Return None (Some err)
    | inl (c', headerJSON) =>
        let prefix := unsignedPrefix c' alg headerJSON in
        match hashLookup alg RSAAlgs with
        | inr _ => Return None (Some (AlgError alg))
        | inl hash =>
            rsaOutcome prefix
              (if startsWithP alg
               then rsa_SignPSS key hash (hashSum hash prefix)
               else rsa_SignPKCS1v15 key hash (hashSum hash prefix))
        end
    end.
Proof.
  intros Hpss Hpkcs. destruct (sync c alg) as [[c' hj]|err] eqn:Hsync.
  2: { unfold RSASign. rewrite Hsync. reflexivity. }
  cbv zeta.
  destruct (hashLookup alg RSAAlgs) as [hash|err] eqn:Hlook.
  - apply RSASign_spec; auto.
    intros sig. destruct (startsWithP alg); [apply Hpss | apply Hpkcs].
  - unfold RSASign. rewrite Hsync, Hlook.
    rewrite (hashLookup_error _ _ _ Hlook). reflexivity.
Qed.

(** X4. [FormatWithoutSign] checks the identifier against no family: for
    every [alg] it fails only when [sync] fails, never panics, and
    otherwise returns the unsigned prefix in an array with exactly one
    spare byte, which is zero. *)
Theorem FormatWithoutSign_decision (c : Claims) (alg : string) :
  FormatWithoutSign c alg =
    match sync c alg with
    | inr err => Return None (Some err)
    | inl (c', headerJSON) =>
        Return (Some (Slice (unsignedPrefix c' alg headerJSON ++ [0])
                            (length (unsignedPrefix c' alg headerJSON)) 0))
               None
    end.
Proof.
  unfold FormatWithoutSign. destruct (sync c alg) as [[c' hj]|err]; [|reflexivity].
  rewrite newToken_spec. reflexivity.
Qed.

(** X5. [ECDSASign] end to end: for a curve of at least ten bytes, on words
    of 32 or 64 bits, with r and s below [2^(8*paramLen)], the call does
    not panic; the digest signed is that of the unsigned prefix, and the
    token is that prefix, the delimiter and the encoding of the
    [2*paramLen] bytes r then s, each big-endian and zero-filled on the
    left.  The width comes from the key's curve, whatever curve the
    identifier stands for. *)
Theorem ECDSASign_end_to_end (c c' : Claims) (alg : string)
    (key : ecdsa_PrivateKey) (headerJSON : option bytes) (hash : Hash)
    (r s : Z) :
  IntSize = 32 \/ IntSize = 64 ->
  sync c alg = inl (c', headerJSON) ->
  hashLookup alg ECDSAAlgs = inl hash ->
  let prefix := unsignedPrefix c' alg headerJSON in
  let paramLen := ((BitSize key + 7) / 8)%nat in
  ecdsa_Sign key (hashSum hash prefix) = inl (r, s) ->
  (10 <= paramLen)%nat ->
  Z.abs r < 2 ^ (8 * Z.of_nat paramLen) ->
  Z.abs s < 2 ^ (8 * Z.of_nat paramLen) ->
  ECDSASign c alg key
  = finished prefix (bigEndian paramLen r ++ bigEndian paramLen s)
  /\ length (bigEndian paramLen r ++ bigEndian paramLen s)
     = (2 * paramLen)%nat.
Proof.
  intros HW Hsync Hlook prefix paramLen Hsign Hp Hr Hs.
  pose proof (wordSpan_fits paramLen HW Hp) as Hspace.
  apply IntSize_rounds in HW as [HW HK].
  split.
  - apply (ECDSASign_spec c c' alg key headerJSON hash r s);
      try assumption; lia.
  - rewrite length_app, !bigEndian_length. lia.
Qed.

(** X6. The spare capacity [newToken] hands over is all zero, from the end
    of the payload to the end of the array: the signature bytes all zero of
    the function's comment, which the zero-filling of r and s relies on. *)
Theorem newToken_spare_capacity_zero (c : Claims) (alg : string)
    (encSigLen : nat) (headerJSON : option bytes) :
  exists token,
    newToken c alg encSigLen headerJSON = Some token
    /\ drop (len token) (arr token) = replicate (1 + encSigLen) 0
    /\ forall i, (len token <= i < cap token)%nat -> arr token !! i = Some 0.
Proof.
  eexists. split; [apply newToken_spec|].
  unfold cap. cbn [len arr].
  split; [apply drop_app_length|].
  intros i Hi. rewrite length_app, length_replicate in Hi.
  rewrite lookup_app_r by lia. apply lookup_replicate_2. lia.
Qed.

(** X7. Whatever r and s the primitive returns, a token [ECDSASign] returns
    is the unsigned prefix followed by the delimiter and
    [EncodedLen(2*paramLen)] characters: its length depends on the header,
    the payload and the key's curve only. *)
Theorem ECDSASign_token_length (c c' : Claims) (alg : string)
    (key : ecdsa_PrivateKey) (headerJSON : option bytes) (t : slice)
    (e : option error) :
  sync c alg = inl (c', headerJSON) ->
  ECDSASign c alg key = Return (Some t) e ->
  let prefix := unsignedPrefix c' alg headerJSON in
  let paramLen := ((BitSize key + 7) / 8)%nat in
  e = None
  /\ take (length prefix) (contents t) = prefix
  /\ length (contents t)
     = (length prefix + 1 + EncodedLen (2 * paramLen))%nat.
Proof.
  intros Hsync H. cbv zeta.
  destruct (hashLookup alg ECDSAAlgs) as [hash|err] eqn:Hlook.
  2: { unfold ECDSASign in H. rewrite Hsync, Hlook in H. discriminate. }
  destruct (ecdsa_Sign key (hashSum hash (unsignedPrefix c' alg headerJSON)))
    as [[r s]|err] eqn:Hsign.
  2: { unfold ECDSASign in H.
       rewrite Hsync, Hlook, newToken_spec, contents_prefix, Hsign in H.
       discriminate. }
  destruct (ECDSASign_outcome c c' alg key headerJSON hash r s Hsync Hlook Hsign)
    as [Hp|(raw & Hraw & Hf)].
  { rewrite Hp in H. discriminate. }
  rewrite Hf in H. unfold finished in H. injection H as <- <-.
  unfold contents. cbn [len arr].
  rewrite (take_ge (signedToken _ _)) by lia.
  unfold signedToken.
  split; [reflexivity|]. split.
  - apply take_app_length.
  - rewrite !length_app, encode_length, Hraw. cbn [length]. lia.
Qed.

Lemma finished_extends (c c' : Claims) (alg : string)
    (headerJSON : option bytes) (sig : bytes) (t : slice) :
  sync c alg = inl (c', headerJSON) ->
  finished (unsignedPrefix c' alg headerJSON) sig = Return (Some t) None ->
  exists u seg,
    FormatWithoutSign c alg = Return (Some u) None
    /\ contents t = contents u ++ [46] ++ seg
    /\ urlSegment seg.
Proof.
  intros Hsync H. unfold finished in H. injection H as <-.
  unfold FormatWithoutSign. rewrite Hsync, newToken_spec.
  eexists. exists (encode sig). split; [reflexivity|].
  rewrite contents_prefix. unfold contents. cbn [len arr].
  rewrite take_ge by lia.
  split; [reflexivity | apply encode_url].
Qed.

(** X8. A signed token extends the unsigned one: whenever [HMACSign],
    [RSASign], [ECDSASign] or [EdDSASign] returns a token,
    [FormatWithoutSign] on the same claims and identifier returns a token
    too, and the signed token is that one followed by the delimiter and a
    segment of base64url characters. *)
Theorem signed_token_extends_unsigned (c : Claims) (alg : string)
    (secret edKey : bytes) (ecKey : ecdsa_PrivateKey) (rsaKey : rsa_PrivateKey)
    (t : slice) :
  primitivesSized ->
  HMACSign c alg secret = Return (Some t) None
  \/ RSASign c alg rsaKey = Return (Some t) None
  \/ ECDSASign c alg ecKey = Return (Some t) None
  \/ (alg = EdDSA /\ EdDSASign c edKey = Return (Some t) None) ->
  exists u seg,
    FormatWithoutSign c alg = Return (Some u) None
    /\ contents t = contents u ++ [46] ++ seg
    /\ urlSegment seg.
Proof.
  intros (Hmac & Hpss & Hpkcs & Hed) [H|[H|[H|[-> H]]]].
  - destruct (decide (length secret = 0%nat)) as [Hz|Hnz].
    { unfold HMACSign in H. rewrite decide_True in H by exact Hz.
      discriminate. }
    destruct (sync c alg) as [[c' hj]|err] eqn:Hsync.
    2: { unfold HMACSign in H. rewrite decide_False, Hsync in H by exact Hnz.
         discriminate. }
    destruct (hashLookup alg HMACAlgs) as [hash|err] eqn:Hlook.
    2: { unfold HMACSign in H.
         rewrite decide_False, Hsync, Hlook in H by exact Hnz. discriminate. }
    rewrite (HMACSign_spec c c' alg secret hj hash Hnz Hsync Hlook (Hmac _ _ _))
      in H.
    eapply finished_extends; eassumption.
  - destruct (sync c alg) as [[c' hj]|err] eqn:Hsync.
    2: { unfold RSASign in H. rewrite Hsync in H. discriminate. }
    destruct (hashLookup alg RSAAlgs) as [hash|err] eqn:Hlook.
    2: { unfold RSASign in H. rewrite Hsync, Hlook in H. discriminate. }
    rewrite (RSASign_spec c c' alg rsaKey hj hash Hsync Hlook) in H
      by (intros sig; destruct (startsWithP alg); [apply Hpss | apply Hpkcs]).
    unfold rsaOutcome in H.
    destruct (if startsWithP alg then _ else _) as [sig|err]; [|discriminate].
    eapply finished_extends; eassumption.
  - destruct (sync c alg) as [[c' hj]|err] eqn:Hsync.
    2: { unfold ECDSASign in H. rewrite Hsync in H. discriminate. }
    destruct (hashLookup alg ECDSAAlgs) as [hash|err] eqn:Hlook.
    2: { unfold ECDSASign in H. rewrite Hsync, Hlook in H. discriminate. }
    destruct (ecdsa_Sign ecKey (hashSum hash (unsignedPrefix c' alg hj)))
      as [[r s]|err] eqn:Hsign.
    2: { unfold ECDSASign in H.
         rewrite Hsync, Hlook, newToken_spec, contents_prefix, Hsign in H.
         discriminate. }
    destruct (ECDSASign_outcome c c' alg ecKey hj hash r s Hsync Hlook Hsign)
      as [Hp|(raw & _ & Hf)].
    { rewrite Hp in H. discriminate. }
    rewrite Hf in H. eapply finished_extends; eassumption.
  - destruct (sync c EdDSA) as [[c' hj]|err] eqn:Hsync.
    2: { unfold EdDSASign in H. rewrite Hsync in H. discriminate. }
    destruct (decide (length edKey = ed25519_PrivateKeySize)) as [Hkey|Hkey].
    2: { unfold EdDSASign in H.
         rewrite Hsync, newToken_spec, decide_False in H by exact Hkey.
         discriminate. }
    rewrite (EdDSASign_spec c c' edKey hj Hsync Hkey (Hed _ _)) in H.
    eapply finished_extends; eassumption.
Qed.

(** ** Reading the raw signature back *)

Lemma fold_bigEndian (n : nat) (x : Z) : forall acc : Z,
  fold_left (fun a b => a * 256 + b) (bigEndian n x) acc
  = acc * 256 ^ Z.of_nat n + Z.abs x mod 256 ^ Z.of_nat n.
Proof.
  induction n as [|n IH]; intros acc.
  - cbn [bigEndian fold_left]. rewrite Z.pow_0_r, Z.mod_1_r. lia.
  - cbn [bigEndian fold_left]. rewrite IH.
    rewrite Nat2Z.inj_succ, Z.pow_succ_r by lia.
    set (P := 256 ^ Z.of_nat n).
    assert (HP : 0 < P) by (apply Z.pow_pos_nonneg; lia).
    rewrite (Z.mul_comm 256 P).
    rewrite (Z.rem_mul_r (Z.abs x) P 256) by lia.
    lia.
Qed.

Lemma beValue_bigEndian (n : nat) (x : Z) :
  Z.abs x < 2 ^ (8 * Z.of_nat n) -> beValue (bigEndian n x) = Z.abs x.
Proof.
  intros Hx. unfold beValue. rewrite fold_bigEndian.
  change 256 with (2 ^ 8). rewrite <- Z.pow_mul_r by lia.
  rewrite Z.mod_small by lia. lia.
Qed.

(** X9. The packing loses nothing: under the conditions of the fixed-width
    layout, the first [paramLen] bytes of the raw signature read as a
    big-endian number are the magnitude of r and the last [paramLen] bytes
    that of s. *)
Theorem packed_signature_reads_back (pre : bytes) (paramLen : nat) (r s : Z) :
  IntSize = 32 \/ IntSize = 64 ->
  (paramLen + wordSpan paramLen <= EncodedLen (2 * paramLen))%nat ->
  Z.abs r < 2 ^ (8 * Z.of_nat paramLen) ->
  Z.abs s < 2 ^ (8 * Z.of_nat paramLen) ->
  exists mem,
    packSignature (pre ++ replicate (EncodedLen (2 * paramLen)) 0)
      (length pre) paramLen r s = Some mem
    /\ let raw := drop (length mem - 2 * paramLen) mem in
       length raw = (2 * paramLen)%nat
       /\ beValue (take paramLen raw) = Z.abs r
       /\ beValue (drop paramLen raw) = Z.abs s.
Proof.
  intros HW Hspace Hr Hs.
  apply IntSize_rounds in HW as [HW HK].
  eexists. split.
  { apply packSignature_spec; [exact HW | lia | exact Hspace | exact Hr | exact Hs]. }
  cbv zeta.
  rewrite drop_app_length' by (rewrite !length_app, !bigEndian_length; lia).
  rewrite length_app, !bigEndian_length.
  split; [lia|].
  rewrite take_app_length' by (rewrite bigEndian_length; reflexivity).
  rewrite drop_app_length' by (rewrite bigEndian_length; reflexivity).
  split; apply beValue_bigEndian; assumption.
Qed.

(** ** Key ids the quoting gets right *)

Lemma chars_plain (f : nat) (b : Z) (rest : bytes) :
  32 <= b -> b <> 34 -> b <> 92 ->
  json.chars (S f) (b :: rest)
  = json.chars f rest ≫= fun tl => Some (b :: tl).
Proof.
  intros H32 H34 H92.
  assert (Hc : (b <? 32) || (b =? 34) || (b =? 92) = false).
  { destruct (Z.ltb_spec b 32); [lia|].
    destruct (Z.eqb_spec b 34); [lia|].
    destruct (Z.eqb_spec b 92); [lia|]. reflexivity. }
  cbn [json.chars].
  destruct b as [|q|q]; [lia| |lia].
  do 7 (try (destruct q as [q|q|]));
    try (rewrite Hc; reflexivity); try contradiction.
Qed.

Lemma chars_escaped (f : nat) (c v : Z) (rest : bytes) :
  In (c, v) [(34, 34); (92, 92); (98, 8); (102, 12); (110, 10); (114, 13);
             (116, 9)] ->
  json.chars (S f) (92 :: c :: rest)
  = json.chars f rest ≫= fun tl => Some (v :: tl).
Proof.
  intros H. simpl in H.
  repeat (destruct H as [[= <- <-]|H]; [reflexivity|]).
  contradiction.
Qed.

Lemma appendEscapedRune_plain (b : Z) :
  32 <= b <= 126 -> b <> 34 -> b <> 92 ->
  strconv.appendEscapedRune AppendRune isPrintTable b = [b].
Proof.
  intros Hb H34 H92. unfold strconv.appendEscapedRune, strconv.IsPrint.
  destruct (Z.eqb_spec b 34); [lia|]. destruct (Z.eqb_spec b 92); [lia|].
  cbn [orb].
  destruct (Z.leb_spec b 255); [|lia].
  destruct (Z.leb_spec 32 b); [|lia].
  destruct (Z.leb_spec b 126); [|lia].
  cbn [andb].
  destruct (Z.ltb_spec b 128); [reflexivity | lia].
Qed.

Lemma jsonSafe_cases (b : Z) :
  jsonSafe b = true ->
  (32 <= b <= 126 /\ b <> 34 /\ b <> 92)
  \/ b = 34 \/ b = 92 \/ b = 8 \/ b = 9 \/ b = 10 \/ b = 12 \/ b = 13.
Proof.
  unfold jsonSafe.
  destruct (Z.leb_spec 32 b), (Z.leb_spec b 126),
    (Z.eqb_spec b 8), (Z.eqb_spec b 9), (Z.eqb_spec b 10),
    (Z.eqb_spec b 12), (Z.eqb_spec b 13); cbn; intros Hsafe;
    try discriminate; lia.
Qed.

(** A safe character is written as one byte, or as a backslash and one of
    the letters JSON knows, and reads back as itself. *)
Lemma quoted_char_reads_back (b : Z) (f : nat) (rest : bytes) :
  jsonSafe b = true ->
  exists k,
    json.chars (S f)
      (strconv.appendEscapedRune AppendRune isPrintTable b ++ rest)
    = (json.chars f rest ≫= fun tl => Some (b :: tl))
    /\ length (strconv.appendEscapedRune AppendRune isPrintTable b) = S k
    /\ b < 128.
Proof.
  intros H. apply jsonSafe_cases in H as [(Hb & H34 & H92)|H].
  - exists 0%nat. rewrite appendEscapedRune_plain by assumption.
    split; [apply chars_plain; lia|]. split; [reflexivity | lia].
  - exists 1%nat.
    repeat (destruct H as [->|H];
            [ split; [apply chars_escaped; simpl;
                      repeat (first [left; reflexivity | right])
                     | split; [reflexivity | lia] ] | ]).
    subst b.
    split; [apply chars_escaped; simpl;
            repeat (first [left; reflexivity | right])
           | split; [reflexivity | lia]].
Qed.

Lemma quoteLoop_reads_back (s : string) : forall f : nat,
  forallb jsonSafe (bytesOf s) = true ->
  (String.length s < f)%nat ->
  json.chars f
    (strconv.quoteLoop DecodeRuneInString AppendRune isPrintTable 0 s ++ [34])
  = Some (bytesOf s).
Proof.
  induction s as [|a rest IH]; intros f Hsafe Hf.
  - destruct f; [cbn in Hf; lia | reflexivity].
  - cbn [bytesOf forallb] in Hsafe. apply andb_prop in Hsafe as [Ha Hrest].
    cbn [String.length] in Hf.
    destruct f as [|f]; [lia|].
    destruct (quoted_char_reads_back _ f
                (strconv.quoteLoop DecodeRuneInString AppendRune isPrintTable
                   0 rest ++ [34]) Ha) as (k & Hread & _ & Hlt).
    cbn [strconv.quoteLoop bytesOf].
    destruct (Z.ltb_spec (Z.of_N (N_of_ascii a)) 128); [|lia].
    rewrite <- app_assoc, Hread, IH by (assumption || lia).
    reflexivity.
Qed.

Lemma quoteLoop_length_safe (s : string) :
  forallb jsonSafe (bytesOf s) = true ->
  (String.length s
   <= length (strconv.quoteLoop DecodeRuneInString AppendRune isPrintTable
                0 s))%nat.
Proof.
  induction s as [|a rest IH]; intros Hsafe; [reflexivity|].
  cbn [bytesOf forallb] in Hsafe. apply andb_prop in Hsafe as [Ha Hrest].
  destruct (quoted_char_reads_back _ 0 [] Ha) as (k & _ & Hlen & Hlt).
  cbn [strconv.quoteLoop String.length].
  destruct (Z.ltb_spec (Z.of_N (N_of_ascii a)) 128); [|lia].
  rewrite length_app, Hlen. specialize (IH Hrest). lia.
Qed.

Lemma AppendQuote_reads_back (s : string) :
  forallb jsonSafe (bytesOf s) = true ->
  json.unquote (AppendQuote [] s) = Some (bytesOf s).
Proof.
  intros Hsafe. unfold AppendQuote, strconv.AppendQuote.
  cbn [app json.unquote].
  apply quoteLoop_reads_back; [exact Hsafe|].
  pose proof (quoteLoop_length_safe s Hsafe).
  cbn [length]. rewrite length_app. cbn [length]. lia.
Qed.

(** X10. For a key id that is not empty, the slow path writes the kid field,
    then the alg field, and nothing else; when the key id and the
    identifier consist of printable ASCII characters, backspace, tab, line
    feed, form feed and carriage return, both values are JSON strings that
    read back as the key id and the identifier. *)
Theorem header_values_read_back (c : Claims) (alg : string) :
  KeyID c <> EmptyString ->
  forallb jsonSafe (bytesOf (KeyID c)) = true ->
  forallb jsonSafe (bytesOf alg) = true ->
  buildHeaderJSON c alg
  = lit_kid ++ AppendQuote [] (KeyID c) ++ lit_comma_alg
      ++ AppendQuote [] alg ++ [125]
  /\ json.unquote (AppendQuote [] (KeyID c)) = Some (bytesOf (KeyID c))
  /\ json.unquote (AppendQuote [] alg) = Some (bytesOf alg).
Proof.
  intros Hk Hkid Halg. split; [|split; apply AppendQuote_reads_back; assumption].
  unfold buildHeaderJSON.
  destruct (String.eqb_spec (KeyID c) EmptyString); [contradiction|].
  unfold AppendQuote, strconv.AppendQuote.
  repeat (progress (rewrite <- ?app_assoc; cbn [app])). reflexivity.
Qed.

(** ** When the packing panics *)

Lemma putWord_underflow (k : nat) : forall (mem : bytes) (base : nat)
    (n i word : Z),
  (0 < k)%nat -> i < Z.of_nat k -> putWord k mem base n i word = None.
Proof.
  induction k as [|k IH]; intros mem base n i word Hk Hi; [lia|].
  cbn [putWord]. unfold sigStore. case_decide; [|reflexivity].
  cbn [mbind option_bind]. apply IH; lia.
Qed.

Lemma putWords_underflow (words : list Z) : forall (mem : bytes)
    (base n : nat) (i : Z),
  (0 < wordRounds)%nat -> words <> [] ->
  i < Z.of_nat (wordRounds * length words) -> i <= Z.of_nat n ->
  (base + n <= length mem)%nat ->
  putWords words mem base (Z.of_nat n) i = None.
Proof.
  induction words as [|w rest IH]; intros mem base n i HK Hne Hi Hin Hmem;
    [contradiction|].
  cbn [putWords].
  destruct (Z.lt_ge_cases i (Z.of_nat wordRounds)) as [Hlt|Hge].
  { rewrite putWord_underflow by assumption. reflexivity. }
  rewrite <- (Z2Nat.id i) by lia.
  rewrite putWord_spec by lia.
  cbn [mbind option_bind]. cbn [length] in Hi.
  apply IH; try assumption; try lia.
  - destruct rest; [cbn [length] in Hi; lia | discriminate].
  - rewrite !length_app, length_take, length_rev, leBytes_length, length_drop.
    lia.
Qed.

(** On a window of [n] bytes the two passes run without a panic exactly
    when the words of s fit in the window and r is zero or its words fit
    below [n - paramLen]. *)
Lemma packSignature_None_iff (mem : bytes) (base paramLen : nat)
    (r s : Z) :
  IntSize = 32 \/ IntSize = 64 ->
  (base <= length mem)%nat ->
  let n := (length mem - base)%nat in
  packSignature mem base paramLen r s = None
  <-> (n < wordRounds * big.nwords IntSize s)%nat
      \/ (big.nwords IntSize r <> 0%nat
          /\ n < paramLen + wordRounds * big.nwords IntSize r)%nat.
Proof.
  intros HW Hbase n.
  apply IntSize_rounds in HW as [HW HK].
  assert (HK0 : (0 < wordRounds)%nat) by lia.
  unfold packSignature. fold n.
  destruct (le_lt_dec (wordRounds * big.nwords IntSize s) n) as [Hs|Hs].
  2: { rewrite putWords_underflow;
         [ | exact HK0
           | intros E; apply (f_equal (@length Z)) in E;
             rewrite Bits_length in E; cbn [length] in E; lia
           | rewrite Bits_length; lia | lia | lia ].
       split; [intros _; left; exact Hs | reflexivity]. }
  rewrite putWords_spec by (rewrite ?Bits_length; lia).
  cbn [mbind option_bind].
  set (mem1 := take _ mem ++ _ ++ _).
  assert (Hmem1 : length mem1 = length mem).
  { assert (Hf : putWords (big.Bits IntSize s) mem base (Z.of_nat n)
                   (Z.of_nat n) = Some (mem1, Z.of_nat (n - wordRounds
                                   * length (big.Bits IntSize s))))
      by (apply putWords_spec; rewrite ?Bits_length; lia).
    apply putWords_frame in Hf as [Hl _]. exact Hl. }
  destruct (Nat.eq_dec (big.nwords IntSize r) 0%nat) as [Hr0|Hr0].
  { assert (Hnil : big.Bits IntSize r = []).
    { apply length_zero_iff_nil. rewrite Bits_length. exact Hr0. }
    rewrite Hnil. cbn [putWords mbind option_bind].
    split; [discriminate | intros [H|[H _]]; [lia | contradiction]]. }
  destruct (le_lt_dec (paramLen + wordRounds * big.nwords IntSize r) n)
    as [Hr|Hr].
  - replace (Z.of_nat n - Z.of_nat paramLen) with (Z.of_nat (n - paramLen))
      by lia.
    rewrite putWords_spec by (rewrite ?Bits_length, ?Hmem1; lia).
    cbn [mbind option_bind].
    split; [discriminate | intros [H|[_ H]]; lia].
  - rewrite putWords_underflow;
      [ | exact HK0
        | intros E; apply (f_equal (@length Z)) in E;
          rewrite Bits_length in E; cbn [length] in E; lia
        | rewrite Bits_length; lia | lia | rewrite Hmem1; lia ].
    split; [intros _; right; split; assumption | reflexivity].
Qed.

(** X11. [ECDSASign] in full: a failing [sync] gives its error; else an
    identifier outside [ECDSAAlgs] gives [AlgError] with that identifier;
    else the primitive signs the digest of the unsigned prefix and its error
    is passed on; else the call panics exactly when the words of s do not
    fit in the [EncodedLen(2*paramLen)] bytes reserved, or r is not zero
    and its words do not fit below the field of s, and otherwise returns
    the prefix, the delimiter and the encoding of [2*paramLen] raw bytes.
    Nothing is stored for a value that is zero, and a value is stored in
    whole words whatever its size. *)
Theorem ECDSASign_decision (c : Claims) (alg : string) (key : ecdsa_PrivateKey) :
  IntSize = 32 \/ IntSize = 64 ->
  let paramLen := ((BitSize key + 7) / 8)%nat in
  let n := EncodedLen (2 * paramLen) in
  match sync c alg with
  | inr err => ECDSASign c alg key = Return None (Some err)
  | inl (c', headerJSON) =>
      let prefix := unsignedPrefix c' alg headerJSON in
      match hashLookup alg ECDSAAlgs with
      | inr _ => ECDSASign c alg key = Return None (Some (AlgError alg))
      | inl hash =>
          match ecdsa_Sign key (hashSum hash prefix) with
          | inr err => ECDSASign c alg key = Return None (Some err)
          | inl (r, s) =>
              let tooLong :=
                (n < wordRounds * big.nwords IntSize s)%nat
                \/ (big.nwords IntSize r <> 0%nat
                    /\ n < paramLen + wordRounds * big.nwords IntSize r)%nat in
              (ECDSASign c alg key = Panic <-> tooLong)
              /\ (~ tooLong ->
                  exists raw, length raw = (2 * paramLen)%nat
                    /\ ECDSASign c alg key = finished prefix raw)
          end
      end
  end.
Proof.
  intros HW paramLen n.
  destruct (sync c alg) as [[c' hj]|err] eqn:Hsync.
  2: { unfold ECDSASign. rewrite Hsync. reflexivity. }
  cbv zeta.
  destruct (hashLookup alg ECDSAAlgs) as [hash|err] eqn:Hlook.
  2: { unfold ECDSASign. rewrite Hsync, Hlook.
       rewrite (hashLookup_error _ _ _ Hlook). reflexivity. }
  destruct (ecdsa_Sign key (hashSum hash (unsignedPrefix c' alg hj)))
    as [[r s]|err] eqn:Hsign.
  2: { unfold ECDSASign.
       rewrite Hsync, Hlook, newToken_spec, contents_prefix, Hsign.
       reflexivity. }
  pose proof (ECDSASign_outcome c c' alg key hj hash r s Hsync Hlook Hsign)
    as Hout.
  set (pre := unsignedPrefix c' alg hj ++ [46]).
  pose proof (packSignature_None_iff (pre ++ replicate n 0) (length pre)
                paramLen r s HW ltac:(rewrite length_app; lia)) as Hiff.
  cbv zeta in Hiff.
  replace (length (pre ++ replicate n 0%Z) - length pre)%nat with n in Hiff
    by (rewrite length_app, length_replicate; lia).
  assert (Hpanic : ECDSASign c alg key = Panic
                   <-> packSignature (pre ++ replicate n 0) (length pre)
                         paramLen r s = None).
  { unfold ECDSASign.
    rewrite Hsync, Hlook, newToken_spec, contents_prefix, Hsign, append_spare.
    fold paramLen pre. replace (paramLen * 2)%nat with (2 * paramLen)%nat by lia.
    fold n. cbn [arr len moves].
    destruct (packSignature (pre ++ replicate n 0) (length pre) paramLen r s)
      as [mem|] eqn:Hpack; [|split; reflexivity].
    split; [|discriminate].
    apply packSignature_frame in Hpack as [Hl _].
    rewrite length_app, length_replicate in Hl.
    pose proof (EncodedLen_gap (2 * paramLen)). fold n in H.
    assert (Hcap : cap (Slice (pre ++ replicate n 0) (length pre) 0)
                   = (length pre + n)%nat)
      by (unfold cap; cbn [arr]; rewrite length_app, length_replicate; lia).
    rewrite Hcap. rewrite decide_True by lia.
    replace (length pre + (length pre + n - length pre - 2 * paramLen))%nat
      with (length mem - 2 * paramLen)%nat by lia.
    rewrite EncodeInPlace_tail by (fold n; lia). discriminate. }
  split.
  - rewrite Hpanic. exact Hiff.
  - intros Hfit. destruct Hout as [Hp|Hraw]; [|exact Hraw].
    exfalso. apply Hfit. apply Hiff. apply Hpanic. exact Hp.
Qed.

(** ** Key ids the quoting gets wrong *)

(** An ASCII character that is not safe is written as a backslash followed
    by the letter a, v or x, none of which JSON knows after a backslash. *)
Lemma unsafe_char_unreadable (b : Z) (f : nat) (rest : bytes) :
  0 <= b < 128 -> jsonSafe b = false ->
  json.chars f (strconv.appendEscapedRune AppendRune isPrintTable b ++ rest)
  = None.
Proof.
  intros Hb Hsafe. destruct f as [|f]; [reflexivity|].
  destruct b as [|q|q]; [reflexivity| |lia].
  do 7 (try (destruct q as [q|q|])); try lia;
    try discriminate Hsafe; reflexivity.
Qed.

Lemma quoteLoop_unreadable (s : string) : forall f : nat,
  forallb (fun b => b <? 128) (bytesOf s) = true ->
  forallb jsonSafe (bytesOf s) = false ->
  json.chars f
    (strconv.quoteLoop DecodeRuneInString AppendRune isPrintTable 0 s ++ [34])
  = None.
Proof.
  induction s as [|a rest IH]; intros f Hascii Hsafe; [discriminate|].
  cbn [bytesOf forallb] in Hascii, Hsafe.
  apply andb_prop in Hascii as [Ha Hrest].
  apply Z.ltb_lt in Ha as Ha'.
  cbn [strconv.quoteLoop]. rewrite Ha. rewrite <- app_assoc.
  destruct (jsonSafe (Z.of_N (N_of_ascii a))) eqn:Hsa.
  - cbn [andb] in Hsafe. destruct f as [|f]; [reflexivity|].
    destruct (quoted_char_reads_back _ f
                (strconv.quoteLoop DecodeRuneInString AppendRune isPrintTable
                   0 rest ++ [34]) Hsa) as (k & Hread & _).
    rewrite Hread, IH by assumption. reflexivity.
  - apply unsafe_char_unreadable; [|exact Hsa].
    split; [apply N2Z.is_nonneg | exact Ha'].
Qed.

(** X12. For a string of ASCII characters, what [strconv.AppendQuote] writes
    is a JSON string that reads back as the string exactly when every
    character is printable or one of backspace, tab, line feed, form feed
    and carriage return; with any other control character or DEL in it,
    what is written is not a JSON string at all. *)
Theorem AppendQuote_json_exactly (s : string) :
  forallb (fun b => b <? 128) (bytesOf s) = true ->
  (json.unquote (AppendQuote [] s) = Some (bytesOf s)
   <-> forallb jsonSafe (bytesOf s) = true)
  /\ (forallb jsonSafe (bytesOf s) = false ->
      json.unquote (AppendQuote [] s) = None).
Proof.
  intros Hascii.
  assert (Hbad : forallb jsonSafe (bytesOf s) = false ->
                 json.unquote (AppendQuote [] s) = None).
  { intros Hsafe. unfold AppendQuote, strconv.AppendQuote.
    cbn [app json.unquote]. apply quoteLoop_unreadable; assumption. }
  split; [|exact Hbad]. split.
  - intros Hread. destruct (forallb jsonSafe (bytesOf s)) eqn:Hsafe;
      [reflexivity|].
    rewrite Hbad in Hread by reflexivity. discriminate.
  - apply AppendQuote_reads_back.
Qed.

End Sign.

(** * The properties at concrete inputs *)

Local Abbreviation sampleUnicode f :=
  (f Sample.DecodeRuneInString Sample.AppendRune Sample.isPrintTable)
  (only parsing).

Local Abbreviation sampleHMACSign sync :=
  (HMACSign sync Sample.hmacSum Sample.growslice Sample.DecodeRuneInString
     Sample.AppendRune Sample.isPrintTable) (only parsing).

Local Abbreviation sampleRSASign :=
  (RSASign Sample.sync Sample.hashSum Sample.rsa_SignPSS
     Sample.rsa_SignPKCS1v15 Sample.DecodeRuneInString Sample.AppendRune
     Sample.isPrintTable) (only parsing).

Local Abbreviation sampleECDSASign r s IntSize :=
  (ECDSASign Sample.sync Sample.hashSum (Sample.ecdsa_Sign r s) IntSize
     Sample.growslice Sample.DecodeRuneInString Sample.AppendRune
     Sample.isPrintTable) (only parsing).

Local Abbreviation sampleFormatWithoutSign :=
  (FormatWithoutSign Sample.sync Sample.DecodeRuneInString Sample.AppendRune
     Sample.isPrintTable) (only parsing).

Lemma Sample_primitivesSized :
  primitivesSized Sample.hmacSum Sample.rsa_SignPSS Sample.rsa_SignPKCS1v15
    Sample.ed25519_Sign.
Proof.
  repeat split; intros;
    try match goal with H : _ = inl _ |- _ => injection H as <- end;
    apply length_replicate.
Qed.

(** The slow-path header of the specification's example: key id k1, HS256. *)
Example header_k1_HS256 :
  sampleUnicode buildHeaderJSON (mkClaims [] "k1") HS256
  = [123; 34] ++ bytesOf "kid" ++ [34; 58; 34] ++ bytesOf "k1" ++ [34; 44; 34]
      ++ bytesOf "alg" ++ [34; 58; 34] ++ bytesOf "HS256" ++ [34; 125].
Proof. reflexivity. Qed.

(** The empty secret wins over a failing [sync] and an unknown algorithm. *)
Lemma HMACSign_empty_secret_witness :
  length (@nil Z) = 0%nat
  /\ hashLookup "none" HMACAlgs = inr (AlgError "none")
  /\ Sample.syncFails Sample.claims "none" = inr (otherError 1)
  /\ sampleHMACSign Sample.syncFails Sample.claims "none" []
     = Return None (Some errNoSecret).
Proof.
  repeat (split; [reflexivity|]).
  exact (HMACSign_empty_secret Sample.syncFails Sample.hmacSum
           Sample.growslice Sample.DecodeRuneInString Sample.AppendRune
           Sample.isPrintTable Sample.claims "none" [] eq_refl).
Defined.

(** C1, counterexample: a curve of eight bits on a 64-bit machine.  r and s
    are below [2^8], the tail has [EncodedLen(2) = 3] bytes, and the first
    word of s takes eight stores: the fourth is at index -1, a panic. *)
Lemma tiny_curve_panics :
  Z.abs 0 < 2 ^ (8 * Z.of_nat 1) /\ Z.abs 1 < 2 ^ (8 * Z.of_nat 1)
  /\ packSignature 64 ([] ++ replicate (base64.EncodedLen (2 * 1)) 0)
       (length (@nil Z)) 1 0 1 = None
  /\ sampleECDSASign 0 1 64 Sample.claims ES256 (mkEC 8 0) = Panic.
Proof. repeat split. Qed.

Lemma packSignature_fixed_width_witness :
  (64 = 32 \/ 64 = 64)
  /\ (32 + wordSpan 64 32 <= base64.EncodedLen (2 * 32))%nat
  /\ Z.abs 1 < 2 ^ (8 * Z.of_nat 32)
  /\ Z.abs 258 < 2 ^ (8 * Z.of_nat 32)
  /\ exists mem,
       packSignature 64 ([46] ++ replicate (base64.EncodedLen (2 * 32)) 0)
         (length [46]) 32 1 258 = Some mem
       /\ drop (length mem - 2 * 32) mem = bigEndian 32 1 ++ bigEndian 32 258
       /\ length (bigEndian 32 1) = 32%nat
       /\ length (bigEndian 32 258) = 32%nat
       /\ take (length [46]) mem = [46].
Proof.
  assert (H1 : 64 = 32 \/ 64 = 64) by (right; reflexivity).
  assert (H2 : (32 + wordSpan 64 32 <= base64.EncodedLen (2 * 32))%nat)
    by (vm_compute; lia).
  assert (H3 : Z.abs 1 < 2 ^ (8 * Z.of_nat 32)) by reflexivity.
  assert (H4 : Z.abs 258 < 2 ^ (8 * Z.of_nat 32)) by reflexivity.
  repeat (split; [assumption|]).
  exact (packSignature_fixed_width 64 [46] 32 1 258 H1 H2 H3 H4).
Defined.

Lemma newToken_buffer_single_allocation_witness :
  exists t,
    sampleHMACSign Sample.sync Sample.claims HS256 [1] = Return (Some t) None
    /\ moves t = 0%nat.
Proof.
  eexists. split; [lazy; reflexivity|].
  apply (proj2 (newToken_buffer_single_allocation Sample.sync Sample.hashSum
                  Sample.hmacSum (Sample.ecdsa_Sign 1 1) Sample.rsa_SignPSS
                  Sample.rsa_SignPKCS1v15 Sample.ed25519_Sign 64
                  Sample.growslice Sample.DecodeRuneInString Sample.AppendRune
                  Sample.isPrintTable Sample.claims HS256 0 None)
           [1] [] (mkEC 256 0) (mkRSA 4 0) _ None).
  right. left. reflexivity.
Defined.

Lemma EncodeInPlace_staged_at_tail_witness :
  (1 + base64.EncodedLen 3 = length [46; 0; 1; 2; 3])%nat
  /\ (forall k, (k < 3 / 3)%nat ->
        (base64.writeCursor 1 k + 3
         < base64.readCursor (length [46; 0; 1; 2; 3] - 3) (S k))%nat)
  /\ base64.EncodeInPlace [46; 0; 1; 2; 3] 1 (length [46; 0; 1; 2; 3] - 3) 3
     = Some (take 1 [46; 0; 1; 2; 3]
               ++ base64.encode (drop (length [46; 0; 1; 2; 3] - 3)
                                   [46; 0; 1; 2; 3])).
Proof.
  split; [reflexivity|].
  exact (EncodeInPlace_staged_at_tail [46; 0; 1; 2; 3] 1 3 eq_refl).
Defined.

Local Abbreviation sampleEdDSASign :=
  (EdDSASign Sample.sync Sample.ed25519_Sign Sample.DecodeRuneInString
     Sample.AppendRune Sample.isPrintTable) (only parsing).

(** One call of each entry point: every one returns a token, of three
    segments for the four signing functions and of two for
    [FormatWithoutSign]. *)
Lemma returned_tokens_well_formed_witness :
  primitivesSized Sample.hmacSum Sample.rsa_SignPSS Sample.rsa_SignPKCS1v15
    Sample.ed25519_Sign
  /\ (exists t,
        sampleHMACSign Sample.sync Sample.claims HS256 [1]
          = Return (Some t) None
        /\ wellFormed 3 (contents t) /\ len t = cap t)
  /\ (exists t,
        sampleRSASign Sample.claims PS256 (mkRSA 4 0) = Return (Some t) None
        /\ wellFormed 3 (contents t) /\ len t = cap t)
  /\ (exists t,
        sampleECDSASign 1 258 64 Sample.claims ES256 (mkEC 256 0)
          = Return (Some t) None
        /\ wellFormed 3 (contents t) /\ len t = cap t)
  /\ (exists t,
        sampleEdDSASign Sample.claims (replicate 64 7) = Return (Some t) None
        /\ wellFormed 3 (contents t) /\ len t = cap t)
  /\ (exists t,
        sampleFormatWithoutSign Sample.claims HS256 = Return (Some t) None
        /\ wellFormed 2 (contents t)).
Proof.
  pose proof (fun alg =>
    returned_tokens_well_formed Sample.sync Sample.hashSum Sample.hmacSum
      (Sample.ecdsa_Sign 1 258) Sample.rsa_SignPSS Sample.rsa_SignPKCS1v15
      Sample.ed25519_Sign 64 Sample.growslice Sample.DecodeRuneInString
      Sample.AppendRune Sample.isPrintTable Sample.claims alg
      [1] (replicate 64 7) (mkEC 256 0) (mkRSA 4 0) Sample_primitivesSized)
    as sampleWellFormed.
  split; [exact Sample_primitivesSized|].
  split; [|split; [|split; [|split]]].
  - destruct (sampleWellFormed HS256) as (Hret & _ & Hrun & _).
    destruct (Hrun _ _ eq_refl) as (_ & Hhmac & _).
    destruct (Hhmac SHA256 ltac:(discriminate) eq_refl) as [t Ht].
    exists t. split; [exact Ht|].
    destruct (Hret (Some t) (or_introl Ht)) as (t' & [= <-] & Hw & Hl).
    split; assumption.
  - destruct (sampleWellFormed PS256) as (Hret & _ & Hrun & _).
    destruct (Hrun _ _ eq_refl) as (_ & _ & Hrsa & _).
    destruct (Hrsa SHA256 _ eq_refl eq_refl) as [t Ht].
    exists t. split; [exact Ht|].
    destruct (Hret (Some t) (or_intror (or_introl Ht)))
      as (t' & [= <-] & Hw & Hl).
    split; assumption.
  - destruct (sampleWellFormed ES256) as (Hret & _ & Hrun & _).
    destruct (Hrun _ _ eq_refl) as (_ & _ & _ & Hec).
    destruct (Hec SHA256 1 258 eq_refl eq_refl (or_intror eq_refl)
                ltac:(vm_compute; lia) eq_refl eq_refl) as [t Ht].
    exists t. split; [exact Ht|].
    destruct (Hret (Some t) (or_intror (or_intror (or_introl Ht))))
      as (t' & [= <-] & Hw & Hl).
    split; assumption.
  - destruct (sampleWellFormed EdDSA) as (Hret & _ & _ & Hed).
    destruct (Hed _ _ eq_refl eq_refl) as [t Ht].
    exists t. split; [exact Ht|].
    destruct (Hret (Some t) (or_intror (or_intror (or_intror Ht))))
      as (t' & [= <-] & Hw & Hl).
    split; assumption.
  - destruct (sampleWellFormed HS256) as (_ & Hfmt & Hrun & _).
    destruct (Hrun _ _ eq_refl) as ([t Ht] & _).
    exists t. split; [exact Ht|].
    destruct (Hfmt (Some t) Ht) as (t' & c' & hj & [= <-] & _ & _ & _ & Hw).
    exact Hw.
Defined.

Lemma RSASign_dispatch_witness :
  Sample.sync Sample.claims PS256 = inl (Sample.claims, None)
  /\ hashLookup PS256 RSAAlgs = inl SHA256
  /\ startsWithP PS256 = true
  /\ sampleRSASign Sample.claims PS256 (mkRSA 4 0)
     = rsaOutcome (sampleUnicode unsignedPrefix Sample.claims PS256 None)
         (Sample.rsa_SignPSS (mkRSA 4 0) SHA256
            (Sample.hashSum SHA256
               (sampleUnicode unsignedPrefix Sample.claims PS256 None))).
Proof.
  assert (H1 : Sample.sync Sample.claims PS256 = inl (Sample.claims, None))
    by reflexivity.
  assert (H2 : hashLookup PS256 RSAAlgs = inl SHA256) by reflexivity.
  assert (H3 : startsWithP PS256 = true) by reflexivity.
  repeat (split; [assumption|]).
  exact (proj1 (proj2 (RSASign_dispatch Sample.sync Sample.hashSum
                         Sample.hmacSum Sample.rsa_SignPSS
                         Sample.rsa_SignPKCS1v15 Sample.ed25519_Sign
                         Sample.DecodeRuneInString Sample.AppendRune
                         Sample.isPrintTable Sample.claims Sample.claims PS256
                         (mkRSA 4 0) None SHA256 H1 H2 Sample_primitivesSized))
           H3).
Defined.

Lemma error_returns_no_token_witness :
  sampleHMACSign Sample.syncFails Sample.claims HS256 [1]
    = Return None (Some (otherError 1))
  /\ (@None slice) = None.
Proof.
  assert (H : sampleHMACSign Sample.syncFails Sample.claims HS256 [1]
              = Return None (Some (otherError 1))) by reflexivity.
  split; [exact H|].
  apply (error_returns_no_token Sample.syncFails Sample.hashSum Sample.hmacSum
           (Sample.ecdsa_Sign 1 1) Sample.rsa_SignPSS Sample.rsa_SignPKCS1v15
           Sample.ed25519_Sign 64 Sample.growslice Sample.DecodeRuneInString
           Sample.AppendRune Sample.isPrintTable Sample.claims HS256
           [1] [] (mkEC 256 0) (mkRSA 4 0) None (otherError 1)).
  right. left. exact H.
Defined.

Local Abbreviation sigP521 := (replicate (base64.EncodedLen (2 * 66)) 0)
  (only parsing).

(** C10, counterexample: P-521 on a 64-bit machine.  [sig] has
    [EncodedLen(132) = 176] bytes, the raw span is [sig[44:176]], with the
    field of r at [sig[44:110]] and that of s at [sig[110:176]].  An s of 66
    bytes has nine words, so the s pass makes 72 stores, down to index 104:
    the six below the field of s are in the field of r, inside the raw span
    and not below it. *)
Lemma s_pass_stores_in_raw_span :
  let n := Z.of_nat (base64.EncodedLen (2 * 66)) in
  let p := Z.of_nat 66 in
  Z.abs (2 ^ 520) < 2 ^ (8 * p)
  /\ exists mem1 log1,
       putWordsLog 64 (big.Bits 64 (2 ^ 520)) sigP521 0 n n
       = Some (mem1, 104, log1)
       /\ In 104 log1
       /\ 104 < n - p
       /\ ~ 104 < n - 2 * p.
Proof.
  cbv zeta. split; [reflexivity|].
  eexists _, _. split; [lazy; reflexivity|].
  split; [|split; [reflexivity | discriminate]].
  repeat (first [left; reflexivity | right]).
Qed.

Lemma ECDSA_indices_in_bounds_witness :
  (64 = 32 \/ 64 = 64)
  /\ (66 = 32 \/ 66 = 48 \/ 66 = 66)%nat
  /\ length sigP521 = (0 + base64.EncodedLen (2 * 66))%nat
  /\ Z.abs (2 ^ 520) < 2 ^ (8 * Z.of_nat 66)
  /\ Z.abs (2 ^ 520 + 5) < 2 ^ (8 * Z.of_nat 66)
  /\ let n := Z.of_nat (base64.EncodedLen (2 * 66)) in
     let p := Z.of_nat 66 in
     exists mem1 i1 log1 mem2 i2 log2,
       putWords 64 (big.Bits 64 (2 ^ 520 + 5)) sigP521 0 n n = Some (mem1, i1)
       /\ putWords 64 (big.Bits 64 (2 ^ 520)) mem1 0 n (n - p)
          = Some (mem2, i2)
       /\ packSignature 64 sigP521 0 66 (2 ^ 520) (2 ^ 520 + 5) = Some mem2
       /\ putWordsLog 64 (big.Bits 64 (2 ^ 520 + 5)) sigP521 0 n n
          = Some (mem1, i1, log1)
       /\ putWordsLog 64 (big.Bits 64 (2 ^ 520)) mem1 0 n (n - p)
          = Some (mem2, i2, log2)
       /\ (forall k, In k (log1 ++ log2) -> 0 <= k < n)
       /\ (forall k, In k log1 -> k < n - p ->
             n - 2 * p <= k /\ mem1 !! (0 + Z.to_nat k)%nat = Some 0)
       /\ (forall k, In k log2 ->
             k < n - p
             /\ (k < n - 2 * p -> mem2 !! (0 + Z.to_nat k)%nat = Some 0))
       /\ 0 <= n - Z.of_nat (wordSpan 64 66) <= i1
       /\ 0 <= n - p - Z.of_nat (wordSpan 64 66) <= i2
       /\ length mem2 = length sigP521
       /\ take 0 mem2 = take 0 sigP521.
Proof.
  assert (H1 : 64 = 32 \/ 64 = 64) by (right; reflexivity).
  assert (H2 : (66 = 32 \/ 66 = 48 \/ 66 = 66)%nat)
    by (right; right; reflexivity).
  assert (H3 : length sigP521 = (0 + base64.EncodedLen (2 * 66))%nat)
    by reflexivity.
  assert (H4 : Z.abs (2 ^ 520) < 2 ^ (8 * Z.of_nat 66)) by reflexivity.
  assert (H5 : Z.abs (2 ^ 520 + 5) < 2 ^ (8 * Z.of_nat 66)) by reflexivity.
  repeat (split; [assumption|]).
  exact (ECDSA_indices_in_bounds 64 sigP521 0 66 (2 ^ 520) (2 ^ 520 + 5)
           H1 H2 H3 H4 H5).
Defined.

(** * The further properties at concrete inputs *)

Local Abbreviation samplePrefix alg :=
  (unsignedPrefix Sample.DecodeRuneInString Sample.AppendRune
     Sample.isPrintTable Sample.claims alg None) (only parsing).

Lemma HMACSign_decision_witness :
  (forall h k m, length (Sample.hmacSum h k m) = hashSize h)
  /\ sampleHMACSign Sample.sync Sample.claims HS256 [1]
     = finished (samplePrefix HS256)
         (Sample.hmacSum SHA256 [1] (samplePrefix HS256)).
Proof.
  assert (H : forall h k m, length (Sample.hmacSum h k m) = hashSize h)
    by (intros; apply length_replicate).
  split; [exact H|].
  exact (HMACSign_decision Sample.sync Sample.hmacSum Sample.growslice
           Sample.DecodeRuneInString Sample.AppendRune Sample.isPrintTable
           Sample.claims HS256 [1] H).
Defined.

Lemma EdDSASign_decision_witness :
  (forall k msg,
     length (Sample.ed25519_Sign k msg) = ed25519_SignatureSize)
  /\ sampleEdDSASign Sample.claims (replicate 64 7)
     = finished (samplePrefix EdDSA)
         (Sample.ed25519_Sign (replicate 64 7) (samplePrefix EdDSA))
  /\ sampleEdDSASign Sample.claims [7] = Panic.
Proof.
  assert (H : forall k msg,
            length (Sample.ed25519_Sign k msg) = ed25519_SignatureSize)
    by (intros; apply length_replicate).
  split; [exact H|]. split.
  - exact (EdDSASign_decision Sample.sync Sample.ed25519_Sign
             Sample.DecodeRuneInString Sample.AppendRune Sample.isPrintTable
             Sample.claims (replicate 64 7) H).
  - exact (EdDSASign_decision Sample.sync Sample.ed25519_Sign
             Sample.DecodeRuneInString Sample.AppendRune Sample.isPrintTable
             Sample.claims [7] H).
Defined.

Lemma RSASign_decision_witness :
  (forall k h d sig,
     Sample.rsa_SignPSS k h d = inl sig -> length sig = rsaSize k)
  /\ (forall k h d sig,
        Sample.rsa_SignPKCS1v15 k h d = inl sig -> length sig = rsaSize k)
  /\ sampleRSASign Sample.claims RS256 (mkRSA 4 0)
     = rsaOutcome (samplePrefix RS256)
         (Sample.rsa_SignPKCS1v15 (mkRSA 4 0) SHA256
            (Sample.hashSum SHA256 (samplePrefix RS256))).
Proof.
  pose proof Sample_primitivesSized as (_ & H1 & H2 & _).
  split; [exact H1|]. split; [exact H2|].
  exact (RSASign_decision Sample.sync Sample.hashSum Sample.rsa_SignPSS
           Sample.rsa_SignPKCS1v15 Sample.DecodeRuneInString Sample.AppendRune
           Sample.isPrintTable Sample.claims RS256 (mkRSA 4 0) H1 H2).
Defined.

Lemma ECDSASign_end_to_end_witness :
  (64 = 32 \/ 64 = 64)
  /\ Sample.sync Sample.claims ES256 = inl (Sample.claims, None)
  /\ hashLookup ES256 ECDSAAlgs = inl SHA256
  /\ Sample.ecdsa_Sign 1 258 (mkEC 256 0)
       (Sample.hashSum SHA256 (samplePrefix ES256)) = inl (1, 258)
  /\ (10 <= (BitSize (mkEC 256 0) + 7) / 8)%nat
  /\ Z.abs 1 < 2 ^ (8 * Z.of_nat ((BitSize (mkEC 256 0) + 7) / 8))
  /\ Z.abs 258 < 2 ^ (8 * Z.of_nat ((BitSize (mkEC 256 0) + 7) / 8))
  /\ sampleECDSASign 1 258 64 Sample.claims ES256 (mkEC 256 0)
     = finished (samplePrefix ES256) (bigEndian 32 1 ++ bigEndian 32 258)
  /\ length (bigEndian 32 1 ++ bigEndian 32 258) = (2 * 32)%nat.
Proof.
  assert (H1 : 64 = 32 \/ 64 = 64) by (right; reflexivity).
  assert (H2 : Sample.sync Sample.claims ES256 = inl (Sample.claims, None))
    by reflexivity.
  assert (H3 : hashLookup ES256 ECDSAAlgs = inl SHA256) by reflexivity.
  assert (H4 : Sample.ecdsa_Sign 1 258 (mkEC 256 0)
                 (Sample.hashSum SHA256 (samplePrefix ES256)) = inl (1, 258))
    by reflexivity.
  assert (H5 : (10 <= (BitSize (mkEC 256 0) + 7) / 8)%nat)
    by (vm_compute; lia).
  assert (H6 : Z.abs 1 < 2 ^ (8 * Z.of_nat ((BitSize (mkEC 256 0) + 7) / 8)))
    by reflexivity.
  assert (H7 : Z.abs 258
               < 2 ^ (8 * Z.of_nat ((BitSize (mkEC 256 0) + 7) / 8)))
    by reflexivity.
  repeat (split; [assumption|]).
  exact (ECDSASign_end_to_end Sample.sync Sample.hashSum
           (Sample.ecdsa_Sign 1 258) 64 Sample.growslice
           Sample.DecodeRuneInString Sample.AppendRune Sample.isPrintTable
           Sample.claims Sample.claims ES256 (mkEC 256 0) None SHA256 1 258
           H1 H2 H3 H4 H5 H6 H7).
Defined.

Lemma ECDSASign_token_length_witness :
  Sample.sync Sample.claims ES256 = inl (Sample.claims, None)
  /\ exists t,
       sampleECDSASign (2 ^ 300) 5 64 Sample.claims ES256 (mkEC 256 0)
         = Return (Some t) None
       /\ (@None error) = None
       /\ take (length (samplePrefix ES256)) (contents t) = samplePrefix ES256
       /\ length (contents t)
          = (length (samplePrefix ES256) + 1
             + base64.EncodedLen (2 * ((BitSize (mkEC 256 0) + 7) / 8)))%nat.
Proof.
  assert (H1 : Sample.sync Sample.claims ES256 = inl (Sample.claims, None))
    by reflexivity.
  split; [exact H1|].
  eexists. split; [lazy; reflexivity|].
  apply (ECDSASign_token_length Sample.sync Sample.hashSum
           (Sample.ecdsa_Sign (2 ^ 300) 5) 64 Sample.growslice
           Sample.DecodeRuneInString Sample.AppendRune Sample.isPrintTable
           Sample.claims Sample.claims ES256 (mkEC 256 0) None _ None H1).
  reflexivity.
Defined.

Lemma signed_token_extends_unsigned_witness :
  primitivesSized Sample.hmacSum Sample.rsa_SignPSS Sample.rsa_SignPKCS1v15
    Sample.ed25519_Sign
  /\ exists t,
       sampleHMACSign Sample.sync Sample.claims HS256 [1]
         = Return (Some t) None
       /\ exists u seg,
            sampleFormatWithoutSign Sample.claims HS256 = Return (Some u) None
            /\ contents t = contents u ++ [46] ++ seg
            /\ urlSegment seg.
Proof.
  split; [exact Sample_primitivesSized|].
  eexists. split; [lazy; reflexivity|].
  apply (signed_token_extends_unsigned Sample.sync Sample.hashSum
           Sample.hmacSum (Sample.ecdsa_Sign 1 1) Sample.rsa_SignPSS
           Sample.rsa_SignPKCS1v15 Sample.ed25519_Sign 64 Sample.growslice
           Sample.DecodeRuneInString Sample.AppendRune Sample.isPrintTable
           Sample.claims HS256 [1] [] (mkEC 256 0) (mkRSA 4 0) _
           Sample_primitivesSized).
  left. reflexivity.
Defined.

Lemma packed_signature_reads_back_witness :
  (32 = 32 \/ 32 = 64)
  /\ (48 + wordSpan 32 48 <= base64.EncodedLen (2 * 48))%nat
  /\ Z.abs (2 ^ 383) < 2 ^ (8 * Z.of_nat 48)
  /\ Z.abs 7 < 2 ^ (8 * Z.of_nat 48)
  /\ exists mem,
       packSignature 32 ([46] ++ replicate (base64.EncodedLen (2 * 48)) 0)
         (length [46]) 48 (2 ^ 383) 7 = Some mem
       /\ let raw := drop (length mem - 2 * 48) mem in
          length raw = (2 * 48)%nat
          /\ beValue (take 48 raw) = Z.abs (2 ^ 383)
          /\ beValue (drop 48 raw) = Z.abs 7.
Proof.
  assert (H1 : 32 = 32 \/ 32 = 64) by (left; reflexivity).
  assert (H2 : (48 + wordSpan 32 48 <= base64.EncodedLen (2 * 48))%nat)
    by (vm_compute; lia).
  assert (H3 : Z.abs (2 ^ 383) < 2 ^ (8 * Z.of_nat 48)) by reflexivity.
  assert (H4 : Z.abs 7 < 2 ^ (8 * Z.of_nat 48)) by reflexivity.
  repeat (split; [assumption|]).
  exact (packed_signature_reads_back 32 [46] 48 (2 ^ 383) 7 H1 H2 H3 H4).
Defined.

Lemma header_values_read_back_witness :
  KeyID (mkClaims [] "k1") <> EmptyString
  /\ forallb jsonSafe (bytesOf (KeyID (mkClaims [] "k1"))) = true
  /\ forallb jsonSafe (bytesOf HS256) = true
  /\ sampleUnicode buildHeaderJSON (mkClaims [] "k1") HS256
     = lit_kid ++ sampleUnicode AppendQuote [] (KeyID (mkClaims [] "k1"))
         ++ lit_comma_alg ++ sampleUnicode AppendQuote [] HS256 ++ [125]
  /\ json.unquote (sampleUnicode AppendQuote [] (KeyID (mkClaims [] "k1")))
     = Some (bytesOf (KeyID (mkClaims [] "k1")))
  /\ json.unquote (sampleUnicode AppendQuote [] HS256) = Some (bytesOf HS256).
Proof.
  assert (H1 : KeyID (mkClaims [] "k1") <> EmptyString) by discriminate.
  assert (H2 : forallb jsonSafe (bytesOf (KeyID (mkClaims [] "k1"))) = true)
    by reflexivity.
  assert (H3 : forallb jsonSafe (bytesOf HS256) = true) by reflexivity.
  repeat (split; [assumption|]).
  exact (header_values_read_back Sample.DecodeRuneInString Sample.AppendRune
           Sample.isPrintTable (mkClaims [] "k1") HS256 H1 H2 H3).
Defined.

Lemma ECDSASign_decision_witness :
  (64 = 32 \/ 64 = 64)
  /\ (sampleECDSASign 0 1 64 Sample.claims ES256 (mkEC 8 0) = Panic
      <-> (base64.EncodedLen (2 * 1) < wordRounds 64 * big.nwords 64 1)%nat
          \/ (big.nwords 64 0 <> 0%nat
              /\ base64.EncodedLen (2 * 1)
                 < 1 + wordRounds 64 * big.nwords 64 0)%nat).
Proof.
  assert (H1 : 64 = 32 \/ 64 = 64) by (right; reflexivity).
  split; [exact H1|].
  exact (proj1 (ECDSASign_decision Sample.sync Sample.hashSum
                  (Sample.ecdsa_Sign 0 1) 64 Sample.growslice
                  Sample.DecodeRuneInString Sample.AppendRune
                  Sample.isPrintTable Sample.claims ES256 (mkEC 8 0) H1)).
Defined.

Lemma AppendQuote_json_exactly_witness :
  forallb (fun b => b <? 128) (bytesOf (String "007"%char "k1")) = true
  /\ forallb jsonSafe (bytesOf (String "007"%char "k1")) = false
  /\ json.unquote (sampleUnicode AppendQuote [] (String "007"%char "k1"))
     = None.
Proof.
  assert (H1 : forallb (fun b => b <? 128)
                 (bytesOf (String "007"%char "k1")) = true) by reflexivity.
  assert (H2 : forallb jsonSafe (bytesOf (String "007"%char "k1")) = false)
    by reflexivity.
  repeat (split; [assumption|]).
  exact (proj2 (AppendQuote_json_exactly Sample.DecodeRuneInString
                  Sample.AppendRune Sample.isPrintTable
                  (String "007"%char "k1") H1) H2).
Defined.
